(** * go-policy-plugin-engine: registry, batch runtime and build pipeline

    A shallow embedding of the policy engine:
    - [core/interfaces.go]: the [Policy] contract and the [PolicyRegistry];
    - [core/main.go]: [RegisterPolicy] and the batch loop of [main];
    - [build.sh]: the build orchestration (import generation, manifest
      rewrite, compile, optional image packaging).

    Go maps are finite maps ([gmap]); the order in which [range] visits a
    map is not fixed by the language, so [List] is a relation between a
    registry and the slices it may return.  Log output and calls of
    [Execute] are recorded as a trace of events. *)

From Stdlib Require Import Ascii.
From stdpp Require Import gmap strings list fin_maps sorting pretty stringmap.

Open Scope string_scope.
Open Scope list_scope.
Open Scope nat_scope.
Set Warnings "-clear-no-such-hyp".

(** ** Values passed to and returned by policies ([interface{}])

    A Go map is given by its entries, in the order of the assignments. *)

#[warnings="-register-all"] Inductive value :=
  | VNil
  | VString (s : string)
  | VStrings (l : list string)
  | VMap (kvs : list (string * value)).

(** A Go [error] value that is not nil carries a message. *)
Definition error := string.

(** ** interfaces.go *)

(** [type Policy interface { Name(); Execute(ctx, input); Validate() }].
    [Execute] returns the pair [(result, err)], [Validate] returns [err];
    [None] is the nil error.  The context passed by [main] is the
    background context, which never expires, and is left out. *)
Record Policy := {
  Name : string;
  Execute : value → value * option error;
  Validate : option error
}.

(** [type PolicyRegistry struct { policies map[string]Policy }] *)
Record PolicyRegistry := { policies : gmap string Policy }.

Definition NewPolicyRegistry : PolicyRegistry := {| policies := ∅ |}.

(** [Register] returns the updated registry and the returned error. *)
Definition Register (r : PolicyRegistry) (p : Policy)
    : PolicyRegistry * option error :=
  match Validate p with
  | Some err => (r, Some err)
  | None => ({| policies := <[Name p := p]> (policies r) |}, None)
  end.

(** [Get] returns [(p, ok)]; [None] stands for [(nil, false)]. *)
Definition Get (r : PolicyRegistry) (name : string) : option Policy :=
  policies r !! name.

(** The keys of the map, in the order of the model's own enumeration. *)
Definition registered_names (r : PolicyRegistry) : list string :=
  (map_to_list (policies r)).*1.

(** [List] appends every key met by [for name := range r.policies]; the
    visiting order is any order of the keys. *)
Definition List (r : PolicyRegistry) (names : list string) : Prop :=
  names ≡ₚ registered_names r.

#[global] Instance List_dec r names : Decision (List r names).
Proof. unfold List. apply _. Defined.

(** ** main.go *)

Inductive event :=
  | LogStarting
  | LogLoaded (n : nat) (names : list string)
  | LogNoPolicies
  | LogExecutingPolicies
  | LogExecuting (name : string)
  | CallExecute (name : string) (input : value)
  | LogExecError (name : string) (err : error)
  | LogResult (result : value)
  | LogCompleted
  | LogRegistered (name : string)
  | LogFatalRegister (name : string) (err : error).

(** How a run of the process stands: still running, terminated with an
    exit status, or stopped by a run-time panic. *)
Inductive status :=
  | Running
  | Exited (code : nat)
  | Panicked.

(** The process: the global [registry] and what was written so far. *)
Record world := { registry : PolicyRegistry; trace : list event }.

Definition emit (evs : list event) (w : world) : world :=
  {| registry := registry w; trace := trace w ++ evs |}.

(** [RegisterPolicy]: [log.Fatalf] prints and exits with status 1. *)
Definition RegisterPolicy (p : Policy) (w : world) : world * status :=
  match Register (registry w) p with
  | (_, Some err) => (emit [LogFatalRegister (Name p) err] w, Exited 1)
  | (r', None) =>
      (emit [LogRegistered (Name p)] {| registry := r'; trace := trace w |},
       Running)
  end.

(** The sample input built in [main]. *)
Definition sample_input : value :=
  VMap [("message", VString "Hello from policy engine");
        ("data", VStrings ["item1"; "item2"; "item3"])].

(** The loop [for _, name := range policies] of [main].  A name that is
    not in the registry makes [policy] nil and the call [policy.Execute]
    panics. *)
Fixpoint execute_all (input : value) (names : list string) (w : world)
    : world * status :=
  match names with
  | [] => (w, Running)
  | name :: rest =>
      match Get (registry w) name with
      | None => (emit [LogExecuting name] w, Panicked)
      | Some policy =>
          let w1 := emit [LogExecuting name; CallExecute name input] w in
          match Execute policy input with
          | (_, Some err) =>
              execute_all input rest (emit [LogExecError name err] w1)
          | (result, None) =>
              execute_all input rest (emit [LogResult result] w1)
          end
      end
  end.

(** The body of [main] once [registry.List()] has returned [policies]. *)
Definition main_body (names : list string) (w : world) : world * status :=
  let w1 := emit [LogStarting; LogLoaded (length names) names] w in
  if decide (length names = 0) then (emit [LogNoPolicies] w1, Exited 0)
  else
    match execute_all sample_input names (emit [LogExecutingPolicies] w1) with
    | (w2, Running) => (emit [LogCompleted] w2, Exited 0)
    | res => res
    end.

(** [main]: any slice [List] may return, then the body. *)
Definition main (w : world) (res : world * status) : Prop :=
  ∃ names, List (registry w) names ∧ res = main_body names w.

(** The generated [init] registers the linked policies one after the
    other; the first fatal registration ends the process. *)
Fixpoint register_policies (ps : list Policy) (w : world) : world * status :=
  match ps with
  | [] => (w, Running)
  | p :: rest =>
      match RegisterPolicy p w with
      | (w', Running) => register_policies rest w'
      | res => res
      end
  end.

Definition initial_world : world :=
  {| registry := NewPolicyRegistry; trace := [] |}.

(** Observations on a trace. *)
Definition execute_calls (tr : list event) : list string :=
  omap (λ e, match e with CallExecute n _ => Some n | _ => None end) tr.

Definition logged_results (tr : list event) : list value :=
  omap (λ e, match e with LogResult v => Some v | _ => None end) tr.

Definition logged_errors (tr : list event) : list (string * error) :=
  omap (λ e, match e with LogExecError n err => Some (n, err) | _ => None end) tr.

(** What the loop is expected to log for one name: the result of a policy
    whose [Execute] returned a nil error, or the error otherwise. *)
Definition result_of (r : PolicyRegistry) (input : value) (name : string)
    : option value :=
  p ← Get r name;
  match Execute p input with
  | (result, None) => Some result
  | (_, Some _) => None
  end.

Definition failure_of (r : PolicyRegistry) (input : value) (name : string)
    : option (string * error) :=
  p ← Get r name;
  match Execute p input with
  | (_, Some err) => Some (name, err)
  | (_, None) => None
  end.

(** Registering a whole sequence with [Register], errors returned to the
    caller and ignored here. *)
Fixpoint register_all (ps : list Policy) (r : PolicyRegistry) : PolicyRegistry :=
  match ps with
  | [] => r
  | p :: rest => register_all rest (Register r p).1
  end.

(** The policies of a sequence that pass their own validation. *)
Definition accepted (ps : list Policy) : list Policy :=
  filter (λ p, Validate p = None) ps.

(** ** example-policies/validator-policy/policy.go *)

(** [%T] of a value, as printed in the type-assertion error. *)
Definition go_type_name (v : value) : string :=
  match v with
  | VNil => "<nil>"
  | VString _ => "string"
  | VStrings _ => "[]string"
  | VMap _ => "map[string]interface {}"
  end.

(** [%v] of a slice of strings. *)
Definition format_strings (l : list string) : string :=
  String.append "[" (String.append (String.concat " " l) "]").

Definition validator_Execute (input : value) : value * option error :=
  match input with
  | VMap inputMap =>
      let requiredFields := ["message"; "data"] in
      let validFields :=
        filter (λ field, field ∈ inputMap.*1) requiredFields in
      let missingFields :=
        filter (λ field, field ∉ inputMap.*1) requiredFields in
      (VMap [("policy", VString "validator-policy");
             ("action", VString "field validation");
             ("required_fields", VStrings requiredFields);
             ("valid_fields", VStrings validFields);
             ("missing_fields", VStrings missingFields);
             ("status",
              VString (if decide (0 < length missingFields)
                       then "FAILED" else "PASSED"));
             ("message",
              VString (if decide (0 < length missingFields)
                       then String.append "Missing required fields: "
                              (format_strings missingFields)
                       else "All required fields present"))],
       None)
  | _ =>
      (VNil,
       Some (String.append "expected map[string]interface{}, got "
               (go_type_name input)))
  end.

Definition validator_policy : Policy :=
  {| Name := "validator-policy";
     Execute := validator_Execute;
     Validate := None |}.

(** ** Policies used to exercise the statements below *)

(** A well-behaved policy that returns its input under its own name. *)
Definition echo_policy (name : string) : Policy :=
  {| Name := name;
     Execute := λ input, (VMap [("policy", VString name); ("input", input)], None);
     Validate := None |}.

(** A policy whose [Execute] always returns an error. *)
Definition failing_policy (name : string) : Policy :=
  {| Name := name;
     Execute := λ _, (VNil, Some "execution failed");
     Validate := None |}.

(** A policy rejected by its own [Validate]. *)
Definition invalid_policy (name : string) : Policy :=
  {| Name := name;
     Execute := λ input, (input, None);
     Validate := Some "invalid configuration" |}.

(** Three policies, the second of which fails on the sample input. *)
Definition three_policies_world : world :=
  {| registry :=
       register_all [echo_policy "first"; failing_policy "second";
                     validator_policy] NewPolicyRegistry;
     trace := [] |}.

(** The registry after registering exactly "alpha" and "beta". *)
Definition alpha_beta_registry : PolicyRegistry :=
  register_all [echo_policy "alpha"; echo_policy "beta"] NewPolicyRegistry.

(** ** build.sh: the policy directories and the core manifest *)

(** An immediate subdirectory of [/policies]: its base name, the lines of
    its [go.mod] when that is a regular file, and whether [policy.go] is
    there. *)
Record policy_dir := {
  dir_name : string;
  go_mod : option (list string);
  has_policy_go : bool
}.

(** The word the loop variable holds: [/policies/<name>/]. *)
Definition dir_path (d : policy_dir) : string :=
  "/policies/" +:+ dir_name d +:+ "/".

Definition newline : string := String "010"%char EmptyString.

(** The characters [awk] of the builder image (busybox, on
    [golang:1.21-alpine]) splits fields on: those of [isspace]. *)
Definition is_blank (c : ascii) : bool :=
  bool_decide (c ∈ ["009"; "010"; "011"; "012"; "013"; " "]%char).

Fixpoint drop_blanks (s : string) : string :=
  match s with
  | String c rest => if is_blank c then drop_blanks rest else s
  | EmptyString => EmptyString
  end.

Fixpoint take_field (s : string) : string :=
  match s with
  | String c rest => if is_blank c then EmptyString else String c (take_field rest)
  | EmptyString => EmptyString
  end.

Fixpoint drop_field (s : string) : string :=
  match s with
  | String c rest => if is_blank c then s else drop_field rest
  | EmptyString => EmptyString
  end.

(** [awk '{print $2}'] on one line: the second blank-separated field, empty
    when the line has fewer than two. *)
Definition awk_second_field (line : string) : string :=
  take_field (drop_blanks (drop_field (drop_blanks line))).

(** [grep "^module "]: the lines that start with [module ] . *)
Definition grep_module (lines : list string) : list string :=
  filter (λ line, String.prefix "module " line = true) lines.

Fixpoint drop_newlines (s : string) : string :=
  match s with
  | String c rest => if bool_decide (c = "010"%char) then drop_newlines rest else s
  | EmptyString => EmptyString
  end.

(** [$(...)]: the output of the command without its trailing newlines. *)
Definition command_substitution (out : string) : string :=
  String.rev (drop_newlines (String.rev out)).

(** [module_path=$(grep "^module " go.mod | awk '{print $2}')] *)
Definition module_path_of (lines : list string) : string :=
  command_substitution
    (String.concat EmptyString
       ((λ line, awk_second_field line +:+ newline) <$> grep_module lines)).

(** *** [go mod edit -replace]

    [go mod edit] belongs to the Go tool chain.  It reads the flag
    [-replace=old[@v]=new[@w]], cuts it at the first [=], trims both
    halves with [strings.TrimSpace], cuts each at the first [@] into a
    path and a version, edits the replace directives and writes the file
    back after dropping duplicate directives (the later one of two for
    one old path and version stays). *)

(** A module path with its version, the version empty when there is
    none ([module.Version]). *)
Abbreviation module_version := (string * string)%type.

(** The replace directives of the core [go.mod] as [go mod edit] leaves
    them on every write: one directive per old path and version.  Their
    place in the file is not part of the model. *)
Abbreviation manifest := (gmap module_version module_version).

(** [unicode.IsSpace] on the UTF-8 encoding: one byte, two bytes
    (U+0085, U+00A0) and three bytes (U+1680, U+2000 to U+200A, U+2028,
    U+2029, U+202F, U+205F, U+3000). *)
Definition is_space_1 (c : ascii) : bool :=
  bool_decide (nat_of_ascii c ∈ [9; 10; 11; 12; 13; 32]).

Definition is_space_2 (c1 c2 : ascii) : bool :=
  bool_decide (nat_of_ascii c1 = 194 ∧ nat_of_ascii c2 ∈ [133; 160]).

Definition is_space_3 (c1 c2 c3 : ascii) : bool :=
  bool_decide
    ((nat_of_ascii c1, nat_of_ascii c2, nat_of_ascii c3)
     ∈ [(225, 154, 128); (226, 128, 128); (226, 128, 129); (226, 128, 130);
        (226, 128, 131); (226, 128, 132); (226, 128, 133); (226, 128, 134);
        (226, 128, 135); (226, 128, 136); (226, 128, 137); (226, 128, 138);
        (226, 128, 168); (226, 128, 169); (226, 128, 175); (226, 129, 159);
        (227, 128, 128)]).

(** Dropping the white space a string starts with; with [backwards] the
    string is read from its end, so the bytes of a character come in
    reverse order. *)
Fixpoint trim_start (backwards : bool) (s : string) : string :=
  match s with
  | String c1 s1 =>
      if is_space_1 c1 then trim_start backwards s1
      else
        match s1 with
        | String c2 s2 =>
            if (if backwards then is_space_2 c2 c1 else is_space_2 c1 c2)
            then trim_start backwards s2
            else
              match s2 with
              | String c3 s3 =>
                  if (if backwards then is_space_3 c3 c2 c1
                      else is_space_3 c1 c2 c3)
                  then trim_start backwards s3
                  else s
              | EmptyString => s
              end
        | EmptyString => s
        end
  | EmptyString => EmptyString
  end.

(** [strings.TrimSpace]: leading, then trailing white space. *)
Definition TrimSpace (s : string) : string :=
  String.rev (trim_start true (String.rev (trim_start false s))).

(** [strings.Cut] at the first occurrence of a one-byte separator. *)
Fixpoint cut_at (sep : ascii) (s : string) : option (string * string) :=
  match s with
  | EmptyString => None
  | String c rest =>
      if decide (c = sep) then Some (EmptyString, rest)
      else (λ halves, (String c halves.1, halves.2)) <$> cut_at sep rest
  end.

(** [path[@version]], both parts trimmed when there is a version. *)
Definition parse_path_version (arg : string) : module_version :=
  match cut_at "@" arg with
  | Some (path, version) => (TrimSpace path, TrimSpace version)
  | None => (arg, EmptyString)
  end.

(** [AddReplace]: a directive without version on the left takes the
    place of every directive for that path; one with a version takes the
    place of the directive for that path and version only. *)
Definition AddReplace (old new : module_version) (m : manifest) : manifest :=
  if decide (old.2 = EmptyString)
  then <[old := new]> (filter (λ kv, kv.1.1 ≠ old.1) m)
  else <[old := new]> m.

(** The directive a successful [go mod edit -replace=arg] writes. *)
Definition flag_replace (arg : string) : option (module_version * module_version) :=
  halves ← cut_at "=" arg;
  Some (parse_path_version (TrimSpace halves.1),
        parse_path_version (TrimSpace halves.2)).

(** [go mod edit -replace="$module_path=$policy_dir"] when it succeeds;
    [old] and [new] are the two words the script puts around the [=]. *)
Definition go_mod_edit_replace (old new : string) (m : manifest) : manifest :=
  match flag_replace (old +:+ "=" +:+ new) with
  | Some (key, target) => AddReplace key target m
  | None => m
  end.

(** The old path and version the directive for the word [old] is kept
    under, and what it points at. *)
Definition replace_key (old : string) : module_version :=
  parse_path_version
    (TrimSpace (match cut_at "=" old with Some (before, _) => before | None => old end)).

Definition replace_target (old new : string) : module_version :=
  parse_path_version
    (TrimSpace (match cut_at "=" old with
                | Some (_, rest) => rest +:+ "=" +:+ new
                | None => new
                end)).



(** A module path the flag takes as it is: without [=], without [@] and
    without white space around it. *)
Definition plain_path (s : string) : Prop :=
  cut_at "=" s = None ∧ cut_at "@" s = None ∧ TrimSpace s = s.

#[global] Instance plain_path_dec s : Decision (plain_path s).
Proof. unfold plain_path. apply _. Defined.

(** What the directory contributes to the rewrite loop: the pair
    [(module_path, policy_dir)] when [go.mod] is a file and the module
    path read from it is not empty. *)
Definition declared_replace (d : policy_dir) : option (string * string) :=
  match go_mod d with
  | Some lines =>
      let module_path := module_path_of lines in
      if decide (module_path = EmptyString) then None
      else Some (module_path, dir_path d)
  | None => None
  end.

(** Lines written to standard output that the statements refer to. *)
Inductive echo :=
  | EchoAdding (module_path dir : string)
  | EchoDependenciesResolved
  | EchoBuildComplete
  | EchoDockerSocketWarning
  | EchoSkippingImage
  | EchoImageCreated (image : string).

(** What a run of the script can change. *)
Record build_state := {
  core_manifest : manifest;
  imports_go : option string;
  binary : bool;
  images : list string;
  output : list echo
}.

(** How a command leaves the script: it goes on, or the script ends with
    an exit status. *)
Inductive flow :=
  | Next
  | Exit (code : nat).

Abbreviation sh := (build_state → build_state * flow).

(** Sequencing under [set -e]. *)
Definition and_then (c1 c2 : sh) : sh :=
  λ st, match c1 st with
        | (st', Next) => c2 st'
        | res => res
        end.

Infix ">>>" := and_then (at level 65, right associativity).

(** An external command that changes nothing here and ends with [code];
    under [set -e] a non-zero status ends the script with it. *)
Definition run (code : nat) : sh :=
  λ st, (st, if decide (code = 0) then Next else Exit code).

Definition say (e : echo) : sh :=
  λ st, ({| core_manifest := core_manifest st; imports_go := imports_go st;
            binary := binary st; images := images st;
            output := output st ++ [e] |}, Next).

Definition exit (code : nat) : sh := λ st, (st, Exit code).

Definition skip : sh := λ st, (st, Next).

Definition set_manifest (f : manifest → manifest) : sh :=
  λ st, ({| core_manifest := f (core_manifest st); imports_go := imports_go st;
            binary := binary st; images := images st;
            output := output st |}, Next).

Definition write_imports_go (source : string) : sh :=
  λ st, ({| core_manifest := core_manifest st; imports_go := Some source;
            binary := binary st; images := images st;
            output := output st |}, Next).

Definition write_binary : sh :=
  λ st, ({| core_manifest := core_manifest st; imports_go := imports_go st;
            binary := true; images := images st;
            output := output st |}, Next).

Definition add_image (image : string) : sh :=
  λ st, ({| core_manifest := core_manifest st; imports_go := imports_go st;
            binary := binary st; images := images st ++ [image];
            output := output st |}, Next).

(** The body of [for policy_dir in /policies/*/] for one directory;
    [edit_status] is the exit status of [go mod edit] for the two words of
    its [-replace] flag. *)
Definition rewrite_one (edit_status : string → string → nat) (d : policy_dir) : sh :=
  match declared_replace d with
  | Some (module_path, dir) =>
      say (EchoAdding module_path dir) >>>
      run (edit_status module_path dir) >>>
      set_manifest (go_mod_edit_replace module_path dir)
  | None => skip
  end.

(** The loop over the expansion of [/policies/*/] (in the order of the
    expansion; without a match the only word is the pattern itself, which
    has no [go.mod], and nothing is done). *)
Fixpoint rewrite_loop (edit_status : string → string → nat)
    (dirs : list policy_dir) : sh :=
  match dirs with
  | [] => skip
  | d :: rest => rewrite_one edit_status d >>> rewrite_loop edit_status rest
  end.

(** A sequence of [go mod edit -replace] calls that all succeed. *)
Definition replace_all (K : list (string * string)) (m : manifest) : manifest :=
  foldl (λ acc r, go_mod_edit_replace r.1 r.2 acc) m K.

(** Of the directives the loop is to write, those written before the
    first failing [go mod edit]; those announced on standard output (the
    failing one included); and how the loop ends. *)
Fixpoint applied (edit_status : string → string → nat)
    (K : list (string * string)) : list (string * string) :=
  match K with
  | [] => []
  | r :: rest =>
      if decide (edit_status r.1 r.2 = 0) then r :: applied edit_status rest
      else []
  end.

Fixpoint announced (edit_status : string → string → nat)
    (K : list (string * string)) : list (string * string) :=
  match K with
  | [] => []
  | r :: rest =>
      r :: (if decide (edit_status r.1 r.2 = 0) then announced edit_status rest
            else [])
  end.

Fixpoint loop_flow (edit_status : string → string → nat)
    (K : list (string * string)) : flow :=
  match K with
  | [] => Next
  | r :: rest =>
      if decide (edit_status r.1 r.2 = 0) then loop_flow edit_status rest
      else Exit (edit_status r.1 r.2)
  end.

(** The manifest the loop leaves. *)
Definition rewrite_manifest (edit_status : string → string → nat)
    (dirs : list policy_dir) (m : manifest) : manifest :=
  replace_all (applied edit_status (omap declared_replace dirs)) m.

(** The state the loop leaves: the rewritten manifest and one line of
    output per directive. *)
Definition after_rewrite (edit_status : string → string → nat)
    (dirs : list policy_dir) (st : build_state) : build_state :=
  {| core_manifest := rewrite_manifest edit_status dirs (core_manifest st);
     imports_go := imports_go st;
     binary := binary st;
     images := images st;
     output := output st
               ++ ((λ r, EchoAdding r.1 r.2)
                     <$> announced edit_status (omap declared_replace dirs)) |}.

(** ** import-generator: discovery and code generation *)

(** What the scanner makes of one directory. *)
Inductive scan_result :=
  | NotAModule
  | MalformedModule
  | FoundModule (import_identifier dir : string).

#[global] Instance scan_result_eq_dec : EqDecision scan_result.
Proof. solve_decision. Defined.

(** Modelled from the spec: the discovery scanner of
    [import-generator/main.go], which is not among the sources.  A
    directory without a manifest, or with a manifest and an identifier but
    without [policy.go], is skipped; a manifest from which no import
    identifier can be read is a discovery error.  The identifier is read
    from the manifest the way [build.sh] reads it. *)
Definition scan_dir (d : policy_dir) : scan_result :=
  match go_mod d with
  | None => NotAModule
  | Some lines =>
      let identifier := module_path_of lines in
      if decide (identifier = EmptyString) then MalformedModule
      else if has_policy_go d then FoundModule identifier (dir_name d)
      else NotAModule
  end.

Definition found_module (d : policy_dir) : option (string * string) :=
  match scan_dir d with
  | FoundModule identifier dir => Some (identifier, dir)
  | _ => None
  end.

(** The sort key of a discovered module is its import identifier. *)
Definition by_identifier (a b : string * string) : Prop := (a.1 ≤ b.1)%string.

#[global] Instance by_identifier_dec : RelDecision by_identifier.
Proof. intros a b. unfold by_identifier. apply _. Defined.

(** Modelled from the spec: the outcome of discovery, also part of the
    missing [import-generator/main.go].  A malformed module or two modules
    declaring the same import identifier make discovery fail ([None]);
    otherwise the modules are returned sorted by import identifier, as
    pairs of identifier and root-relative path. *)
Definition discover (dirs : list policy_dir) : option (list (string * string)) :=
  if decide (Exists (λ d, scan_dir d = MalformedModule) dirs) then None
  else
    let found := omap found_module dirs in
    if decide (NoDup found.*1) then Some (merge_sort by_identifier found)
    else None.

(** [PolicyModule]: root-relative path, declared import identifier and
    generated alias. *)
Record PolicyModule := {
  relative_path : string;
  import_identifier : string;
  generated_alias : string
}.

Fixpoint contains_slash (s : string) : bool :=
  match s with
  | EmptyString => false
  | String c rest => bool_decide (c = "/"%char) || contains_slash rest
  end.

(** The final path segment of an import identifier. *)
Fixpoint final_segment (s : string) : string :=
  match s with
  | EmptyString => EmptyString
  | String c rest =>
      if bool_decide (c = "/"%char) || contains_slash rest
      then final_segment rest else s
  end.

(** The characters of a Go identifier, here ASCII letters, digits and
    the underscore. *)
Definition is_digit (c : ascii) : bool :=
  bool_decide (48 ≤ nat_of_ascii c ≤ 57).

Definition is_letter (c : ascii) : bool :=
  bool_decide (65 ≤ nat_of_ascii c ≤ 90) || bool_decide (97 ≤ nat_of_ascii c ≤ 122)
  || bool_decide (c = "_"%char).

(** Modelled from the spec: every character that cannot stand in a Go
    identifier becomes an underscore, so that the generated source
    compiles. *)
Fixpoint sanitize (s : string) : string :=
  match s with
  | EmptyString => EmptyString
  | String c rest =>
      String (if is_letter c || is_digit c then c else "_"%char) (sanitize rest)
  end.

(** Modelled from the spec: the base name of an alias, derived from the
    final path segment of the import identifier so that it is a Go
    identifier: other characters become underscores, and a name that is
    empty or starts with a digit gets an underscore in front. *)
Definition alias_base (identifier : string) : string :=
  match sanitize (final_segment identifier) with
  | EmptyString => "_"
  | String c rest =>
      if is_digit c then String "_" (String c rest) else String c rest
  end.

Fixpoint all_chars (P : ascii → bool) (s : string) : bool :=
  match s with
  | EmptyString => true
  | String c rest => P c && all_chars P rest
  end.

(** A Go identifier over ASCII: a letter or underscore, then letters,
    digits and underscores. *)
Definition go_identifier (s : string) : bool :=
  match s with
  | EmptyString => false
  | String c rest =>
      is_letter c && all_chars (λ c, is_letter c || is_digit c) rest
  end.

(** Modelled from the spec: the names an alias must not take for the
    generated source to compile: the Go keywords, the blank identifier
    and the names package [main] declares. *)
Definition reserved_names : gset string :=
  list_to_set
    ["break"; "default"; "func"; "interface"; "select"; "case"; "defer"; "go";
     "map"; "struct"; "chan"; "else"; "goto"; "package"; "switch"; "const";
     "fallthrough"; "if"; "range"; "type"; "continue"; "for"; "import";
     "return"; "var"; "_"; "main"; "init"; "registry"; "RegisterPolicy";
     "Policy"; "PolicyRegistry"; "NewPolicyRegistry"].

(** Modelled from the spec: alias assignment of the missing code
    generator, collision-free.  In the sorted order each module gets its
    base name when that is still free, and otherwise the base name with
    the first numeric discriminator that makes it free. *)
Fixpoint assign_aliases (used : gset string) (found : list (string * string))
    : list PolicyModule :=
  match found with
  | [] => []
  | (identifier, dir) :: rest =>
      let alias := fresh_string_of_set (alias_base identifier) used in
      {| relative_path := dir;
         import_identifier := identifier;
         generated_alias := alias |}
      :: assign_aliases ({[alias]} ∪ used) rest
  end.

Definition quote : string := String "034"%char EmptyString.
Definition tab : string := String "009"%char EmptyString.

Definition import_line (m : PolicyModule) : string :=
  tab +:+ generated_alias m +:+ " " +:+ quote +:+ import_identifier m
      +:+ quote +:+ newline.

Definition registration_line (m : PolicyModule) : string :=
  tab +:+ "RegisterPolicy(&" +:+ generated_alias m +:+ ".Policy{})" +:+ newline.

(** Modelled from the spec: the aggregator source written by the missing
    code generator: the machine-generated marker, one import per module
    under its alias and, in the same order, one registration call per
    module in the initialization block. *)
Definition render (ms : list PolicyModule) : string :=
  "// Code generated by import-generator. DO NOT EDIT." +:+ newline
  +:+ newline +:+ "package main" +:+ newline +:+ newline
  +:+ "import (" +:+ newline
  +:+ String.concat EmptyString (import_line <$> ms)
  +:+ ")" +:+ newline +:+ newline
  +:+ "func init() {" +:+ newline
  +:+ String.concat EmptyString (registration_line <$> ms)
  +:+ "}" +:+ newline.

(** Modelled from the spec: one generation over the directories in the
    order the traversal met them; [None] is a fatal discovery error. *)
Definition generate (dirs : list policy_dir) : option string :=
  found ← discover dirs;
  Some (render (assign_aliases reserved_names found)).

(** ** build.sh: the script *)

(** What a run depends on and does not decide itself: the mounted
    directories, the exit statuses of the external commands, the Docker
    socket and the two environment variables.  The [echo]s and the [cd]s
    into [/app/import-generator] and [/app/core], directories of the
    image, have no field: they succeed. *)
Record build_env := {
  policies_is_dir : bool;
  policy_dirs : list policy_dir;
  go_mod_download : nat;
  write_output : nat;
  go_mod_edit : string → string → nat;
  go_mod_tidy : nat;
  go_build : nat;
  docker_socket : bool;
  mkdir_context : nat;
  cp_binary : nat;
  write_dockerfile : nat;
  docker_build : nat;
  rm_context : nat;
  POLICY_ENGINE_IMAGE_REPO : option string;
  POLICY_ENGINE_TAG : option string
}.

(** Modelled from the spec: the run of the missing generator,
    [go run main.go -policies=/policies -output=/app/core/imports.go].
    A missing root, a discovery error and a failed write are fatal and
    leave the output file as it was. *)
Definition import_generator (env : build_env) : sh :=
  if policies_is_dir env then
    match generate (policy_dirs env) with
    | Some source => run (write_output env) >>> write_imports_go source
    | None => exit 1
    end
  else exit 1.

(** [${VAR:-word}]: [word] when the variable is unset or empty. *)
Definition or_default (v : option string) (word : string) : string :=
  match v with
  | Some s => if decide (s = EmptyString) then word else s
  | None => word
  end.

Definition image_of (env : build_env) : string :=
  or_default (POLICY_ENGINE_IMAGE_REPO env) "policy-engine" +:+ ":"
  +:+ or_default (POLICY_ENGINE_TAG env) "latest".

(** Step 2: the replace directives, then [go mod tidy], which resolves
    the requirements and leaves the replace directives alone. *)
Definition resolve_dependencies (env : build_env) : sh :=
  (if policies_is_dir env
   then rewrite_loop (go_mod_edit env) (policy_dirs env) else skip) >>>
  run (go_mod_tidy env) >>>
  say EchoDependenciesResolved.

(** Step 3: [go build -o policy-engine]. *)
Definition build_application (env : build_env) : sh :=
  run (go_build env) >>> write_binary >>> say EchoBuildComplete.

(** The last step: the final image, when the Docker socket is mounted:
    [mkdir -p] of the build context, [cp] of the binary, [cat >] of the
    Dockerfile, [docker build], and [rm -rf] of the build context, each
    under [set -e]. *)
Definition packaging (env : build_env) : sh :=
  if docker_socket env then
    run (mkdir_context env) >>>
    run (cp_binary env) >>>
    run (write_dockerfile env) >>>
    run (docker_build env) >>>
    add_image (image_of env) >>>
    say (EchoImageCreated (image_of env)) >>>
    run (rm_context env)
  else
    say EchoDockerSocketWarning >>> say EchoSkippingImage >>> exit 0.

(** Steps 2 to 4, all of the script after the generator has run. *)
Definition script_tail (env : build_env) : sh :=
  resolve_dependencies env >>> build_application env >>> packaging env.

Definition build_sh (env : build_env) : sh :=
  run (go_mod_download env) >>>
  import_generator env >>>
  resolve_dependencies env >>>
  build_application env >>>
  packaging env.

(** The exit status of the script: that of [exit] or of the failed
    command, and 0 when the last command was reached. *)
Definition exit_status (res : build_state * flow) : nat :=
  match res.2 with
  | Next => 0
  | Exit code => code
  end.



(** The stages before the rewrite loop went through: the generator's
    dependencies were downloaded, discovery succeeded and the aggregator
    source was written. *)
Definition generated (env : build_env) : Prop :=
  go_mod_download env = 0 ∧ policies_is_dir env = true
  ∧ is_Some (generate (policy_dirs env)) ∧ write_output env = 0.

(** Every stage before packaging went through. *)
Definition compiled (env : build_env) : Prop :=
  generated env
  ∧ loop_flow (go_mod_edit env) (omap declared_replace (policy_dirs env)) = Next
  ∧ go_mod_tidy env = 0 ∧ go_build env = 0.

#[global] Instance generated_dec env : Decision (generated env).
Proof. unfold generated. apply _. Defined.

#[global] Instance flow_eq_dec : EqDecision flow.
Proof. solve_decision. Defined.

#[global] Instance compiled_dec env : Decision (compiled env).
Proof. unfold compiled. apply _. Defined.

(** Steps 2 and 3 went through: every [go mod edit] of the loop (when
    [/policies] is a directory), [go mod tidy] and [go build]. *)
Definition built (env : build_env) : Prop :=
  (policies_is_dir env = true →
   loop_flow (go_mod_edit env) (omap declared_replace (policy_dirs env)) = Next)
  ∧ go_mod_tidy env = 0 ∧ go_build env = 0.

(** The commands of the packaging step before the end of [docker build]
    went through; and all of them. *)
Definition image_built (env : build_env) : Prop :=
  mkdir_context env = 0 ∧ cp_binary env = 0 ∧ write_dockerfile env = 0
  ∧ docker_build env = 0.

Definition packaged (env : build_env) : Prop :=
  image_built env ∧ rm_context env = 0.

#[global] Instance built_dec env : Decision (built env).
Proof. unfold built. apply _. Defined.

#[global] Instance image_built_dec env : Decision (image_built env).
Proof. unfold image_built. apply _. Defined.

#[global] Instance packaged_dec env : Decision (packaged env).
Proof. unfold packaged. apply _. Defined.

(** The state in which packaging starts when resolution and compilation
    went through. *)
Definition after_build (st : build_state) : build_state :=
  {| core_manifest := core_manifest st;
     imports_go := imports_go st;
     binary := true;
     images := images st;
     output := (output st ++ [EchoDependenciesResolved]) ++ [EchoBuildComplete] |}.

(** ** Directories and environments used to exercise the statements *)

(** A well-formed policy module: [go.mod] declares [identifier] and
    [policy.go] is present. *)
Definition module_dir (name identifier : string) : policy_dir :=
  {| dir_name := name;
     go_mod := Some ["module " +:+ identifier; EmptyString; "go 1.21"];
     has_policy_go := true |}.

(** The two example policies, in the order of the expansion. *)
Definition example_policies : list policy_dir :=
  [module_dir "uppercase-policy" "github.com/example/policies/uppercase-policy";
   module_dir "validator-policy" "github.com/example/policies/validator-policy"].

(** A directory whose [go.mod] has no [module] line. *)
Definition malformed_dir : policy_dir :=
  {| dir_name := "broken"; go_mod := Some ["go 1.21"]; has_policy_go := true |}.

(** A run in which every external command succeeds. *)
Definition successful_env (dirs : list policy_dir) (socket : bool)
    (docker_status : nat) : build_env :=
  {| policies_is_dir := true;
     policy_dirs := dirs;
     go_mod_download := 0;
     write_output := 0;
     go_mod_edit := λ _ _, 0;
     go_mod_tidy := 0;
     go_build := 0;
     docker_socket := socket;
     mkdir_context := 0;
     cp_binary := 0;
     write_dockerfile := 0;
     docker_build := docker_status;
     rm_context := 0;
     POLICY_ENGINE_IMAGE_REPO := Some "policy-engine";
     POLICY_ENGINE_TAG := None |}.

Definition fresh_state : build_state :=
  {| core_manifest := ∅; imports_go := None; binary := false;
     images := []; output := [] |}.

(** Two policy modules that declare the same import identifier. *)
Definition colliding_policies : list policy_dir :=
  [module_dir "first" "github.com/example/policies/shared";
   module_dir "second" "github.com/example/policies/shared"].

(** A module and, after it, a directory that declares the same module
    path in its [go.mod] but has no [policy.go]. *)
Definition shadowed_policies : list policy_dir :=
  [module_dir "first" "github.com/example/policies/shared";
   {| dir_name := "second";
      go_mod := Some ["module github.com/example/policies/shared"];
      has_policy_go := false |}].

(** A run with the Docker socket mounted in which [cp] of the binary
    into the build context fails and [docker build] would succeed. *)
Definition cp_failing_env : build_env :=
  {| policies_is_dir := true;
     policy_dirs := example_policies;
     go_mod_download := 0;
     write_output := 0;
     go_mod_edit := λ _ _, 0;
     go_mod_tidy := 0;
     go_build := 0;
     docker_socket := true;
     mkdir_context := 0;
     cp_binary := 1;
     write_dockerfile := 0;
     docker_build := 0;
     rm_context := 0;
     POLICY_ENGINE_IMAGE_REPO := None;
     POLICY_ENGINE_TAG := None |}.

(** The state after [docker build] succeeded. *)
Definition with_image (env : build_env) (st : build_state) : build_state :=
  {| core_manifest := core_manifest st; imports_go := imports_go st;
     binary := binary st; images := images st ++ [image_of env];
     output := output st ++ [EchoImageCreated (image_of env)] |}.

(** The state after the warning about the missing socket. *)
Definition with_warning (st : build_state) : build_state :=
  {| core_manifest := core_manifest st; imports_go := imports_go st;
     binary := binary st; images := images st;
     output := (output st ++ [EchoDockerSocketWarning]) ++ [EchoSkippingImage] |}.

(** ** Further definitions *)

(** Reading a key of a Go map value; [None] when the value is not a map
    or has no such key. *)
Fixpoint entry (key : string) (kvs : list (string * value)) : option value :=
  match kvs with
  | [] => None
  | (k, v) :: rest => if decide (k = key) then Some v else entry key rest
  end.

Definition field (key : string) (v : value) : option value :=
  match v with
  | VMap kvs => entry key kvs
  | _ => None
  end.

(** The process as the Go runtime starts it: the [init] of the generated
    [imports.go] registers the linked policies, then [main] runs with the
    slice [names] returned by [List]. *)
Definition process (ps : list Policy) (names : list string) : world * status :=
  match register_policies ps initial_world with
  | (w, Running) => main_body names w
  | res => res
  end.

(** What a run of registrations that all succeed writes to the log. *)
Definition registered_events (ps : list Policy) : list event :=
  (λ p, LogRegistered (Name p)) <$> ps.

(** ** example-policies/uppercase-policy/policy.go *)

Section uppercase_policy.
(** [strings.ToUpper] of the Go standard library. *)
Variable ToUpper : string → string.

(** The [switch v := value.(type)] of the loop over the input map. *)
Definition uppercase_value (v : value) : value :=
  match v with
  | VString s => VString (ToUpper s)
  | VStrings l => VStrings (ToUpper <$> l)
  | _ => v
  end.

Definition uppercase_Execute (input : value) : value * option error :=
  match input with
  | VMap inputMap =>
      let transformed := (λ kv, (kv.1, uppercase_value kv.2)) <$> inputMap in
      (VMap [("policy", VString "uppercase-policy");
             ("action", VString "uppercase transformation");
             ("input", VMap inputMap);
             ("output", VMap transformed)],
       None)
  | _ =>
      (VNil,
       Some (String.append "expected map[string]interface{}, got "
               (go_type_name input)))
  end.

Definition uppercase_policy : Policy :=
  {| Name := "uppercase-policy";
     Execute := uppercase_Execute;
     Validate := None |}.
End uppercase_policy.

(** [strings.ToUpper] on strings of ASCII characters, used to exercise the
    statements about the uppercase policy. *)
Definition ascii_to_upper (c : ascii) : ascii :=
  let n := nat_of_ascii c in
  if decide (97 ≤ n ∧ n ≤ 122) then ascii_of_nat (n - 32) else c.

Fixpoint ToUpper_ascii (s : string) : string :=
  match s with
  | EmptyString => EmptyString
  | String c rest => String (ascii_to_upper c) (ToUpper_ascii rest)
  end.

(** The characters of a string. *)
Fixpoint chars (s : string) : list ascii :=
  match s with
  | EmptyString => []
  | String c rest => c :: chars rest
  end.

(** A word as [awk] and the shell see it: not empty and without white
    space. *)
Definition is_word (s : string) : Prop :=
  s ≠ EmptyString
  ∧ Forall (λ c, is_blank c = false ∧ c ≠ "010"%char) (chars s).

#[global] Instance is_word_dec s : Decision (is_word s).
Proof. unfold is_word. apply _. Defined.

(** A run in which [go mod edit] fails, with status 2, for the module
    path [bad] and every other external command succeeds. *)
Definition edit_failing_env (bad : string) (dirs : list policy_dir) : build_env :=
  {| policies_is_dir := true;
     policy_dirs := dirs;
     go_mod_download := 0;
     write_output := 0;
     go_mod_edit := λ module_path _, if decide (module_path = bad) then 2 else 0;
     go_mod_tidy := 0;
     go_build := 0;
     docker_socket := false;
     mkdir_context := 0;
     cp_binary := 0;
     write_dockerfile := 0;
     docker_build := 0;
     rm_context := 0;
     POLICY_ENGINE_IMAGE_REPO := None;
     POLICY_ENGINE_TAG := None |}.

(** ** Facts about the registry *)

Section registry_facts.
Implicit Types (r : PolicyRegistry) (p : Policy) (names : list string).

Lemma registered_names_NoDup r : NoDup (registered_names r).
Proof. apply NoDup_fst_map_to_list. Qed.

Lemma elem_of_registered_names r name :
  name ∈ registered_names r ↔ is_Some (Get r name).
Proof.
  unfold registered_names, Get. rewrite list_elem_of_fmap. split.
  - intros [[k p] [-> Hin]]. apply elem_of_map_to_list in Hin. eauto.
  - intros [p Hp]. exists (name, p). split; [done|].
    by apply elem_of_map_to_list.
Qed.

Lemma length_registered_names r :
  length (registered_names r) = size (policies r).
Proof.
  unfold registered_names. by rewrite length_fmap, length_map_to_list.
Qed.

Lemma List_NoDup r names : List r names → NoDup names.
Proof. intros ->. apply registered_names_NoDup. Qed.

Lemma List_elem_of r names name :
  List r names → name ∈ names ↔ is_Some (Get r name).
Proof. intros ->. apply elem_of_registered_names. Qed.

Lemma List_length r names : List r names → length names = size (policies r).
Proof. intros ->. apply length_registered_names. Qed.

Lemma List_iff r names :
  List r names ↔ NoDup names ∧ ∀ name, name ∈ names ↔ is_Some (Get r name).
Proof.
  split.
  - intros HL. split; [by eapply List_NoDup|]. intros name.
    by apply List_elem_of.
  - intros [Hnd Hin]. apply NoDup_Permutation;
      [done|apply registered_names_NoDup|].
    intros name. by rewrite Hin, elem_of_registered_names.
Qed.

Lemma List_exists r : List r (registered_names r).
Proof. by unfold List. Qed.

Lemma List_empty names : List NewPolicyRegistry names → names = [].
Proof.
  unfold List, registered_names. simpl. rewrite map_to_list_empty. simpl.
  apply Permutation_nil_r.
Qed.

Lemma Register_invalid r p err :
  Validate p = Some err → Register r p = (r, Some err).
Proof. unfold Register. by intros ->. Qed.

Lemma Register_valid r p :
  Validate p = None →
  Register r p = ({| policies := <[Name p := p]> (policies r) |}, None).
Proof. unfold Register. by intros ->. Qed.

Lemma Get_Register_valid r p name :
  Validate p = None →
  Get (Register r p).1 name = if decide (Name p = name) then Some p else Get r name.
Proof.
  intros Hv. rewrite (Register_valid _ _ Hv). unfold Get. simpl.
  apply lookup_insert.
Qed.

Lemma dom_Register r p :
  dom (policies (Register r p).1) =
  match Validate p with
  | Some _ => dom (policies r)
  | None => {[Name p]} ∪ dom (policies r)
  end.
Proof.
  unfold Register. destruct (Validate p); simpl; [done|].
  apply dom_insert_L.
Qed.

Lemma dom_register_all ps r :
  dom (policies (register_all ps r)) =
  list_to_set (Name <$> accepted ps) ∪ dom (policies r).
Proof.
  revert r. induction ps as [|p ps IH]; intros r; simpl.
  - by rewrite union_empty_l_L.
  - rewrite IH, dom_Register. unfold accepted. rewrite filter_cons.
    case_decide as Hv; rewrite Hv || destruct (Validate p); try done.
    rewrite fmap_cons, list_to_set_cons. set_solver.
Qed.
End registry_facts.

(** ** Facts about the batch loop *)

Section batch_facts.
Implicit Types (r : PolicyRegistry) (w : world) (names : list string).

Lemma registry_emit evs w : registry (emit evs w) = registry w.
Proof. done. Qed.

Lemma trace_emit evs w : trace (emit evs w) = trace w ++ evs.
Proof. done. Qed.

(** One turn of the loop for a registered name adds the call and exactly
    one of the two log lines. *)
Lemma execute_all_cons input name rest w policy :
  Get (registry w) name = Some policy →
  execute_all input (name :: rest) w =
  execute_all input rest
    (emit [match Execute policy input with
           | (_, Some err) => LogExecError name err
           | (result, None) => LogResult result
           end]
       (emit [LogExecuting name; CallExecute name input] w)).
Proof.
  intros Hget. simpl. rewrite Hget.
  by destruct (Execute policy input) as [result [err|]].
Qed.

(** The loop never stops early: over registered names it runs to the end
    of the slice, whatever the policies return. *)
Lemma execute_all_registered input names w :
  Forall (λ name, is_Some (Get (registry w) name)) names →
  ∃ w', execute_all input names w = (w', Running)
    ∧ registry w' = registry w
    ∧ execute_calls (trace w') = execute_calls (trace w) ++ names
    ∧ logged_results (trace w') =
        logged_results (trace w) ++ omap (result_of (registry w) input) names
    ∧ logged_errors (trace w') =
        logged_errors (trace w) ++ omap (failure_of (registry w) input) names.
Proof.
  revert w. induction names as [|name rest IH]; intros w Hall.
  - exists w. simpl. by rewrite !app_nil_r.
  - apply Forall_cons in Hall as [[policy Hget] Hrest].
    rewrite (execute_all_cons _ _ _ _ _ Hget).
    set (w1 := emit _ (emit _ w)).
    destruct (IH w1) as (w' & Hrun & Hreg & Hcalls & Hres & Herr); [done|].
    exists w'. split; [done|]. split; [by rewrite Hreg|].
    rewrite Hcalls, Hres, Herr. subst w1.
    rewrite !registry_emit, !trace_emit.
    unfold execute_calls, logged_results, logged_errors, result_of, failure_of.
    rewrite !omap_app. simpl. rewrite Hget. simpl.
    destruct (Execute policy input) as [result [err|]]; simpl;
      by rewrite <-?app_assoc, ?app_nil_r.
Qed.

Lemma List_all_registered r names :
  List r names → Forall (λ name, is_Some (Get r name)) names.
Proof.
  intros HL. apply Forall_forall. intros name Hin.
  by apply (List_elem_of _ _ _ HL).
Qed.
End batch_facts.

(** ** The registry and the batch runtime: main statements *)

(** C5.  [Register] is decided by [Validate] alone: an error from
    [Validate] is returned as it is and the registry stays as it was; a
    nil error stores the policy under its name, leaves every other entry
    alone and returns nil.  In [RegisterPolicy] the returned error ends
    the process with status 1, with the registry as it was. *)
Theorem Register_validate_first (r : PolicyRegistry) (p : Policy) :
  (∀ err, Validate p = Some err →
     Register r p = (r, Some err)
     ∧ ∀ w rest, registry w = r →
         RegisterPolicy p w = (emit [LogFatalRegister (Name p) err] w, Exited 1)
         ∧ register_policies (p :: rest) w = RegisterPolicy p w)
  ∧ (Validate p = None →
       (Register r p).2 = None
       ∧ policies (Register r p).1 = <[Name p := p]> (policies r)
       ∧ Get (Register r p).1 (Name p) = Some p
       ∧ ∀ name, name ≠ Name p → Get (Register r p).1 name = Get r name).
Proof.
  split.
  - intros err Hv. split; [by apply Register_invalid|].
    intros w rest <-. simpl. unfold RegisterPolicy.
    by rewrite (Register_invalid _ _ _ Hv).
  - intros Hv. rewrite (Register_valid _ _ Hv). simpl.
    split; [done|]. split; [done|]. unfold Get. simpl.
    split; [by rewrite lookup_insert_eq|].
    intros name Hne. by rewrite lookup_insert_ne.
Qed.

Lemma Register_validate_first_witness :
  Register NewPolicyRegistry (invalid_policy "broken")
    = (NewPolicyRegistry, Some "invalid configuration")
  ∧ (register_policies [invalid_policy "broken"; validator_policy]
       initial_world).2 = Exited 1
  ∧ (Register NewPolicyRegistry validator_policy).2 = None
  ∧ Get (Register NewPolicyRegistry validator_policy).1 "validator-policy"
      = Some validator_policy.
Proof.
  destruct (proj1 (Register_validate_first NewPolicyRegistry
                     (invalid_policy "broken")) _ eq_refl)
    as [Hsame Hfatal].
  destruct (Hfatal initial_world [validator_policy] eq_refl) as [Hexit Hstop].
  destruct (proj2 (Register_validate_first NewPolicyRegistry
                     validator_policy) eq_refl) as (Hnil & _ & Hget & _).
  split; [exact Hsame|]. split; [by rewrite Hstop, Hexit|].
  split; [exact Hnil|exact Hget].
Defined.

(** C9.  With no policy registered [List] can only return the empty
    slice; [main] then logs the start, the count and the warning, returns
    with status 0 and calls [Execute] on nothing. *)
Theorem main_without_policies (w : world) (res : world * status) :
  policies (registry w) = ∅ →
  main w res →
  res = (emit [LogStarting; LogLoaded 0 []; LogNoPolicies] w, Exited 0)
  ∧ execute_calls (trace res.1) = execute_calls (trace w).
Proof.
  intros Hempty (names & HL & ->).
  assert (names = []) as ->.
  { apply Permutation_nil_r. unfold List, registered_names in HL.
    by rewrite Hempty, map_to_list_empty in HL. }
  unfold main_body, emit. simpl. rewrite <-app_assoc. simpl.
  split; [done|]. unfold execute_calls. rewrite omap_app. simpl.
  by rewrite app_nil_r.
Qed.

Lemma main_without_policies_witness :
  (emit [LogStarting; LogLoaded 0 []; LogNoPolicies] initial_world, Exited 0)
    = (emit [LogStarting; LogLoaded 0 []; LogNoPolicies] initial_world, Exited 0)
  ∧ execute_calls
      (trace (emit [LogStarting; LogLoaded 0 []; LogNoPolicies] initial_world))
    = execute_calls (trace initial_world).
Proof.
  apply (main_without_policies initial_world
           (emit [LogStarting; LogLoaded 0 []; LogNoPolicies] initial_world,
            Exited 0)).
  - reflexivity.
  - exists []. split; [|reflexivity]. unfold List. vm_compute. constructor.
Defined.

Lemma result_of_failure_of r input name err :
  failure_of r input name = Some err → result_of r input name = None.
Proof.
  unfold failure_of, result_of. destruct (Get r name) as [p|]; simpl; [|done].
  by destruct (Execute p input) as [result [e|]].
Qed.

Lemma failure_of_result_of r input name v :
  result_of r input name = Some v → failure_of r input name = None.
Proof.
  unfold failure_of, result_of. destruct (Get r name) as [p|]; simpl; [|done].
  by destruct (Execute p input) as [result [e|]].
Qed.

Lemma main_body_registered names w :
  Forall (λ name, is_Some (Get (registry w) name)) names →
  (main_body names w).2 = Exited 0.
Proof.
  intros Hall. unfold main_body. case_decide; [done|].
  set (w1 := emit [LogExecutingPolicies] _).
  destruct (execute_all_registered sample_input names w1) as (w' & -> & _);
    done.
Qed.

Lemma registered_names_register_all ps :
  registered_names (register_all ps NewPolicyRegistry)
    ≡ₚ remove_dups (Name <$> accepted ps).
Proof.
  apply NoDup_Permutation.
  - apply registered_names_NoDup.
  - apply NoDup_remove_dups.
  - intros name. rewrite elem_of_registered_names, elem_of_remove_dups.
    unfold Get. rewrite <-elem_of_dom, dom_register_all. simpl.
    rewrite dom_empty_L, union_empty_r_L. apply elem_of_list_to_set.
Qed.

Lemma register_all_app ps1 ps2 r :
  register_all (ps1 ++ ps2) r = register_all ps2 (register_all ps1 r).
Proof. revert r. induction ps1 as [|p ps1 IH]; intros r; simpl; [done|]. apply IH. Qed.

Lemma List_register_all_length ps names :
  List (register_all ps NewPolicyRegistry) names →
  length names = length (remove_dups (Name <$> accepted ps)).
Proof.
  intros HL. unfold List in HL.
  by rewrite HL, registered_names_register_all.
Qed.

(** C10.  A second valid policy under a name already taken replaces the
    first without any error: [Get] then returns the later instance and
    [List] is as long as before.  In every registry built by [Register]
    calls from the empty one, the length of [List] is the number of
    distinct names among the policies that were accepted. *)
Theorem Register_same_name_replaces
    (ps : list Policy) (p q : Policy) (names l1 l2 : list string) :
  let r := register_all ps NewPolicyRegistry in
  Validate p = None → Validate q = None → Name q = Name p →
  List r names →
  List (Register r p).1 l1 →
  List (Register (Register r p).1 q).1 l2 →
  (Register (Register r p).1 q).2 = None
  ∧ Get (Register (Register r p).1 q).1 (Name p) = Some q
  ∧ length names = length (remove_dups (Name <$> accepted ps))
  ∧ length l1 = length (remove_dups (Name <$> accepted (ps ++ [p])))
  ∧ length l2 = length (remove_dups (Name <$> accepted (ps ++ [p; q])))
  ∧ length l2 = length l1.
Proof.
  intros r Hp Hq Hname Hnames Hl1 Hl2.
  assert (length l2 = length l1) as Hlen.
  { rewrite (List_length _ _ Hl1), (List_length _ _ Hl2).
    rewrite <-!size_dom, (dom_Register _ q), Hq, Hname.
    rewrite (dom_Register _ p), Hp. f_equal. set_solver. }
  split; [by rewrite (Register_valid _ _ Hq)|].
  split.
  { rewrite Get_Register_valid by done. by rewrite decide_True. }
  split; [by apply List_register_all_length|].
  assert (length l1 = length (remove_dups (Name <$> accepted (ps ++ [p]))))
    as Hl1'.
  { apply List_register_all_length. by rewrite register_all_app. }
  split; [done|]. split; [|done].
  apply List_register_all_length.
  by rewrite (register_all_app ps [p; q]).
Qed.

Lemma Register_same_name_replaces_witness :
  (Register (Register NewPolicyRegistry (failing_policy "audit")).1
     (echo_policy "audit")).2 = None
  ∧ Get (Register (Register NewPolicyRegistry (failing_policy "audit")).1
           (echo_policy "audit")).1 "audit" = Some (echo_policy "audit")
  ∧ length (@nil string) = 0
  ∧ length ["audit"] = 1
  ∧ length ["audit"] = 1
  ∧ length ["audit"] = length ["audit"].
Proof.
  apply (Register_same_name_replaces []
           (failing_policy "audit") (echo_policy "audit")
           [] ["audit"] ["audit"]);
    try reflexivity; unfold List; vm_compute; repeat constructor.
Defined.

(** C4.  The batch loop runs to the end of the slice returned by [List]
    whatever the policies return: every name gets its [Execute] call in
    turn, a returned error is logged under the policy's name and no
    result is logged for it, every other policy has its result logged,
    and [main] ends with status 0.  With three policies of which the
    second fails, the results of the first and the third are logged. *)
Theorem execute_all_isolates_errors
    (input : value) (names : list string) (w : world) :
  List (registry w) names →
  ∃ w',
    execute_all input names w = (w', Running)
    ∧ execute_calls (trace w') = execute_calls (trace w) ++ names
    ∧ logged_errors (trace w') =
        logged_errors (trace w) ++ omap (failure_of (registry w) input) names
    ∧ logged_results (trace w') =
        logged_results (trace w) ++ omap (result_of (registry w) input) names
    ∧ (main_body names w).2 = Exited 0
    ∧ ∀ n1 n2 n3 v1 err v3,
        names = [n1; n2; n3] →
        result_of (registry w) input n1 = Some v1 →
        failure_of (registry w) input n2 = Some (n2, err) →
        result_of (registry w) input n3 = Some v3 →
        logged_results (trace w') = logged_results (trace w) ++ [v1; v3]
        ∧ logged_errors (trace w') = logged_errors (trace w) ++ [(n2, err)].
Proof.
  intros HL. pose proof (List_all_registered _ _ HL) as Hall.
  destruct (execute_all_registered input names w Hall)
    as (w' & Hrun & _ & Hcalls & Hres & Herr).
  exists w'. repeat (split; [done || by apply main_body_registered|]).
  intros n1 n2 n3 v1 err v3 -> H1 H2 H3.
  rewrite Hres, Herr. simpl.
  rewrite H1, H2, H3, (result_of_failure_of _ _ _ _ H2).
  by rewrite (failure_of_result_of _ _ _ _ H1),
    (failure_of_result_of _ _ _ _ H3).
Qed.

Lemma execute_all_isolates_errors_witness :
  ∃ w',
    execute_all sample_input ["first"; "second"; "validator-policy"]
      three_policies_world = (w', Running)
    ∧ execute_calls (trace w') = ["first"; "second"; "validator-policy"]
    ∧ logged_errors (trace w') = [("second", "execution failed")]
    ∧ logged_results (trace w') =
        [(Execute (echo_policy "first") sample_input).1;
         (validator_Execute sample_input).1].
Proof.
  destruct (execute_all_isolates_errors sample_input
              ["first"; "second"; "validator-policy"] three_policies_world)
    as (w' & Hrun & Hcalls & Herr & Hres & _).
  - unfold List. vm_compute.
    apply (Permutation_trans
             (perm_swap "second" "first" ["validator-policy"])).
    apply perm_skip, perm_swap.
  - exists w'. split; [exact Hrun|]. split; [exact Hcalls|].
    split; [exact Herr|exact Hres].
Defined.

(** C1, as the code has it.  [List] returns every registered name exactly
    once and in no fixed order: any arrangement of the names may come
    back, none is sorted for the caller, and the batch loop calls
    [Execute] in the order of the slice it was given.  After registering
    exactly "alpha" and "beta" the slice is one of the two arrangements
    of these names. *)
Theorem List_any_order (r : PolicyRegistry) (names : list string) :
  List r names →
  NoDup names
  ∧ (∀ name, name ∈ names ↔ is_Some (Get r name))
  ∧ (∀ names', names' ≡ₚ names → List r names')
  ∧ (∀ w, registry w = r →
       ∃ w', execute_all sample_input names w = (w', Running)
         ∧ execute_calls (trace w') = execute_calls (trace w) ++ names)
  ∧ (∀ pa pb,
       Validate pa = None → Validate pb = None →
       Name pa = "alpha" → Name pb = "beta" →
       r = register_all [pa; pb] NewPolicyRegistry →
       names = ["alpha"; "beta"] ∨ names = ["beta"; "alpha"]).
Proof.
  intros HL. split; [by eapply List_NoDup|].
  split; [intros name; by apply List_elem_of|].
  split; [intros names' Hp; unfold List in *; by rewrite Hp|].
  split.
  - intros w <-. pose proof (List_all_registered _ _ HL) as Hall.
    destruct (execute_all_registered sample_input names w Hall)
      as (w' & Hrun & _ & Hcalls & _).
    by exists w'.
  - intros pa pb Ha Hb Hna Hnb ->.
    unfold List in HL. rewrite registered_names_register_all in HL.
    unfold accepted in HL. rewrite !filter_cons, filter_nil in HL.
    rewrite !decide_True in HL by done. simpl in HL.
    rewrite Hna, Hnb in HL. vm_compute in HL.
    symmetry in HL. by apply Permutation_length_2_inv in HL as [->| ->]; auto.
Qed.

Lemma List_any_order_witness :
  NoDup ["beta"; "alpha"]
  ∧ (∀ name, name ∈ ["beta"; "alpha"] ↔ is_Some (Get alpha_beta_registry name))
  ∧ (∀ names', names' ≡ₚ ["beta"; "alpha"] → List alpha_beta_registry names')
  ∧ (∀ w, registry w = alpha_beta_registry →
       ∃ w', execute_all sample_input ["beta"; "alpha"] w = (w', Running)
         ∧ execute_calls (trace w') = execute_calls (trace w) ++ ["beta"; "alpha"])
  ∧ (∀ pa pb,
       Validate pa = None → Validate pb = None →
       Name pa = "alpha" → Name pb = "beta" →
       alpha_beta_registry = register_all [pa; pb] NewPolicyRegistry →
       ["beta"; "alpha"] = ["alpha"; "beta"] ∨ ["beta"; "alpha"] = ["beta"; "alpha"]).
Proof.
  apply (List_any_order alpha_beta_registry ["beta"; "alpha"]).
  unfold List. vm_compute. apply perm_swap || apply Permutation_refl.
Defined.

(** C1 as stated fails: after registering exactly "alpha" and "beta",
    [List] may return ["beta"; "alpha"], which is not sorted by name. *)
Lemma List_sorted_counterexample :
  ¬ (∀ names, List alpha_beta_registry names → names = ["alpha"; "beta"]).
Proof.
  intros Hsorted.
  assert (List alpha_beta_registry ["beta"; "alpha"]) as HL.
  { unfold List. vm_compute. apply perm_swap || apply Permutation_refl. }
  by specialize (Hsorted _ HL).
Qed.

(** ** Facts about strings *)

Section string_facts.
Implicit Types (s t : string) (c : ascii).

Lemma chars_inj s t : chars s = chars t → s = t.
Proof.
  revert t. induction s as [|c s IH]; intros [|c' t]; simpl; try done.
  intros [= -> Hrest]. f_equal. by apply IH.
Qed.

Lemma chars_app s t : chars (s +:+ t) = chars s ++ chars t.
Proof.
  induction s as [|c s IH]; [done|].
  change (String c s +:+ t) with (String c (s +:+ t)). simpl. by rewrite IH.
Qed.

Lemma chars_rev_app s t :
  chars (String.rev_app s t) = reverse (chars s) ++ chars t.
Proof.
  revert t. induction s as [|c s IH]; intros t; [done|]. simpl.
  rewrite IH, reverse_cons, <-app_assoc. done.
Qed.

Lemma chars_rev s : chars (String.rev s) = reverse (chars s).
Proof. unfold String.rev. by rewrite chars_rev_app, app_nil_r. Qed.

Lemma rev_rev s : String.rev (String.rev s) = s.
Proof. apply chars_inj. by rewrite !chars_rev, reverse_involutive. Qed.

Lemma rev_ends_with s c l :
  chars s = l ++ [c] → ∃ t, String.rev s = String c t.
Proof.
  intros Hs. pose proof (chars_rev s) as Hrev.
  rewrite Hs, reverse_snoc in Hrev.
  destruct (String.rev s) as [|c' t]; simplify_eq/=. eauto.
Qed.

Lemma cut_at_None sep s : sep ∉ chars s → cut_at sep s = None.
Proof.
  induction s as [|c s IH]; [done|]. simpl. intros Hnot.
  apply not_elem_of_cons in Hnot as [Hc Hs].
  rewrite decide_False by done. by rewrite IH.
Qed.

Lemma cut_at_None_chars sep s : cut_at sep s = None → sep ∉ chars s.
Proof.
  induction s as [|c s IH]; simpl; [intros _; apply not_elem_of_nil|].
  case_decide; [done|]. destruct (cut_at sep s); [done|]. intros _.
  apply not_elem_of_cons. split; [done|by apply IH].
Qed.

Lemma is_space_2_ascii c1 c2 : nat_of_ascii c2 < 128 → is_space_2 c1 c2 = false.
Proof.
  intros Hlt. apply bool_decide_eq_false. intros [_ Hin].
  repeat (apply elem_of_cons in Hin as [?|Hin]; [lia|]).
  by apply elem_of_nil in Hin.
Qed.

Lemma is_space_3_ascii c1 c2 c3 :
  nat_of_ascii c3 < 128 → is_space_3 c1 c2 c3 = false.
Proof.
  intros Hlt. apply bool_decide_eq_false. intros Hin.
  repeat (apply elem_of_cons in Hin as [[= ? ? ?]|Hin]; [lia|]).
  by apply elem_of_nil in Hin.
Qed.

(** A string that ends with an ASCII character other than white space
    loses nothing at its end. *)
Lemma trim_start_backwards_ascii c s :
  nat_of_ascii c < 128 → is_space_1 c = false →
  trim_start true (String c s) = String c s.
Proof.
  intros Hlt Hc. simpl. rewrite Hc.
  destruct s as [|c2 [|c3 s]]; [done| |];
    rewrite ?is_space_2_ascii, ?is_space_3_ascii by done; done.
Qed.

(** The words the loop hands over for a directory are left as they are
    by [strings.TrimSpace] and hold no version. *)
Lemma TrimSpace_dir name :
  TrimSpace ("/policies/" +:+ name +:+ "/") = "/policies/" +:+ name +:+ "/".
Proof.
  unfold TrimSpace.
  assert (trim_start false ("/policies/" +:+ name +:+ "/")
          = "/policies/" +:+ name +:+ "/") as ->.
  { change ("/policies/" +:+ name +:+ "/")
      with (String "/" (String "p" (String "o" ("licies/" +:+ name +:+ "/")))).
    reflexivity. }
  destruct (rev_ends_with ("/policies/" +:+ name +:+ "/") "/"
              (chars "/policies/" ++ chars name)) as [t Ht].
  { by rewrite !chars_app, <-app_assoc. }
  rewrite <-(rev_rev ("/policies/" +:+ name +:+ "/")) at 2.
  rewrite Ht. f_equal.
  apply trim_start_backwards_ascii; [vm_compute; lia|reflexivity].
Qed.

Lemma parse_dir name :
  cut_at "@" name = None →
  parse_path_version ("/policies/" +:+ name +:+ "/")
  = ("/policies/" +:+ name +:+ "/", EmptyString).
Proof.
  intros Hname. unfold parse_path_version. rewrite cut_at_None; [done|].
  rewrite !chars_app. apply cut_at_None_chars in Hname. simpl.
  rewrite !not_elem_of_cons, not_elem_of_app, !not_elem_of_cons.
  repeat split; try done. apply not_elem_of_nil.
Qed.
End string_facts.

(** ** Facts about [go mod edit -replace] and the rewrite loop *)

Section manifest_facts.
Implicit Types (m : manifest) (old new : string) (k : module_version)
  (K : list (string * string)).

Lemma cut_at_flag old new :
  cut_at "=" (old +:+ "=" +:+ new)
  = Some (match cut_at "=" old with
          | Some (before, rest) => (before, rest +:+ "=" +:+ new)
          | None => (old, new)
          end).
Proof.
  induction old as [|c old IH].
  - done.
  - change (String c old +:+ "=" +:+ new) with (String c (old +:+ "=" +:+ new)).
    simpl. destruct (decide (c = "="%char)) as [->|Hc]; [done|].
    rewrite IH. by destruct (cut_at "=" old) as [[before rest]|].
Qed.

Lemma go_mod_edit_replace_eq old new m :
  go_mod_edit_replace old new m
  = AddReplace (replace_key old) (replace_target old new) m.
Proof.
  unfold go_mod_edit_replace, flag_replace, replace_key, replace_target.
  rewrite cut_at_flag. simpl.
  by destruct (cut_at "=" old) as [[before rest]|].
Qed.

Lemma lookup_AddReplace (key target : module_version) m k :
  AddReplace key target m !! k =
  if decide (k = key) then Some target
  else if decide (key.2 = EmptyString ∧ k.1 = key.1) then None
       else m !! k.
Proof.
  unfold AddReplace. destruct (decide (k = key)) as [->|Hne].
  - case_decide; by rewrite lookup_insert_eq.
  - destruct (decide (key.2 = EmptyString)) as [Hv|Hv].
    + rewrite lookup_insert_ne by done.
      destruct (decide (key.2 = EmptyString ∧ k.1 = key.1)) as [[_ Hp]|Hn].
      * apply map_lookup_filter_None. right. intros x _. simpl. by intros [].
      * destruct (m !! k) as [x|] eqn:Hk.
        -- apply map_lookup_filter_Some. split; [done|]. simpl. naive_solver.
        -- apply map_lookup_filter_None. by left.
    + rewrite lookup_insert_ne by done.
      rewrite decide_False by naive_solver. done.
Qed.

(** Every call acts on each directive on its own. *)
(** The directive for a module path the flag takes as it is and the
    location of a policy directory. *)
Lemma replace_key_plain old :
  plain_path old → replace_key old = (old, EmptyString).
Proof.
  intros (Hno_eq & Hno_at & Htrim). unfold replace_key.
  rewrite Hno_eq, Htrim. unfold parse_path_version. by rewrite Hno_at.
Qed.

Lemma replace_target_dir old name :
  plain_path old → cut_at "@" name = None →
  replace_target old ("/policies/" +:+ name +:+ "/")
  = ("/policies/" +:+ name +:+ "/", EmptyString).
Proof.
  intros (Hno_eq & _ & _) Hname. unfold replace_target.
  by rewrite Hno_eq, TrimSpace_dir, parse_dir.
Qed.



End manifest_facts.

(** ** Facts about the script *)

Section script_facts.
Implicit Types (env : build_env) (st : build_state) (dirs : list policy_dir).

Lemma and_then_assoc (c1 c2 c3 : sh) st :
  ((c1 >>> c2) >>> c3) st = (c1 >>> c2 >>> c3) st.
Proof. unfold and_then. by destruct (c1 st) as [st' [|code]]. Qed.

Lemma and_then_ext (c1 c2 c2' : sh) st :
  (∀ st', c2 st' = c2' st') → (c1 >>> c2) st = (c1 >>> c2') st.
Proof. intros Hext. unfold and_then. by destruct (c1 st) as [st' [|code]]. Qed.

Lemma rewrite_loop_spec edit_status dirs st :
  rewrite_loop edit_status dirs st =
  (after_rewrite edit_status dirs st,
   loop_flow edit_status (omap declared_replace dirs)).
Proof.
  revert st. induction dirs as [|d dirs IH]; intros st.
  - destruct st. unfold after_rewrite, rewrite_manifest, replace_all. simpl.
    by rewrite app_nil_r.
  - simpl. unfold and_then at 1, rewrite_one.
    unfold after_rewrite, rewrite_manifest, replace_all. simpl.
    destruct (declared_replace d) as [[module_path dir]|]; simpl.
    + unfold and_then, run, say, set_manifest. simpl.
      destruct (decide (edit_status module_path dir = 0)) as [Hok|Hfail]; simpl.
      * rewrite IH. unfold after_rewrite, rewrite_manifest, replace_all. simpl.
        by rewrite <-app_assoc.
      * done.
    + rewrite IH. done.
Qed.



(** A run that does not get through generation ends with a non-zero
    status and has changed nothing. *)
Lemma build_sh_not_generated env st :
  ¬ generated env →
  exit_status (build_sh env st) ≠ 0 ∧ (build_sh env st).1 = st.
Proof.
  intros Hnot. unfold build_sh, and_then, run, import_generator, exit_status.
  destruct (decide (go_mod_download env = 0)) as [Hd|Hd]; simpl; [|done].
  destruct (policies_is_dir env) eqn:Hdir; simpl; [|done].
  destruct (generate (policy_dirs env)) as [source|] eqn:Hgen; simpl; [|done].
  unfold and_then, run.
  destruct (decide (write_output env = 0)) as [Hw|Hw]; simpl; [|done].
  destruct Hnot. unfold generated. rewrite Hgen. eauto.
Qed.

(** A run that gets through generation enters the rewrite loop with the
    new aggregator source written. *)
Lemma build_sh_generated env st source :
  generated env → generate (policy_dirs env) = Some source →
  build_sh env st =
  (rewrite_loop (go_mod_edit env) (policy_dirs env) >>>
   run (go_mod_tidy env) >>> say EchoDependenciesResolved >>>
   build_application env >>> packaging env)
    {| core_manifest := core_manifest st; imports_go := Some source;
       binary := binary st; images := images st; output := output st |}.
Proof.
  intros (Hd & Hdir & _ & Hw) Hgen.
  unfold build_sh, import_generator, resolve_dependencies.
  rewrite Hdir, Hgen. unfold and_then at 1, run at 1.
  rewrite Hd. simpl. unfold and_then at 1 2, run at 1. rewrite Hw. simpl.
  rewrite and_then_assoc. apply and_then_ext. intros st'.
  apply and_then_assoc.
Qed.

Lemma build_sh_compiled env st source :
  compiled env → generate (policy_dirs env) = Some source →
  build_sh env st =
  packaging env
    (after_build
       (after_rewrite (go_mod_edit env) (policy_dirs env)
          {| core_manifest := core_manifest st; imports_go := Some source;
             binary := binary st; images := images st; output := output st |})).
Proof.
  intros (Hgen & Hloop & Htidy & Hbuild) Hsrc.
  rewrite (build_sh_generated env st source Hgen Hsrc).
  unfold and_then at 1. rewrite rewrite_loop_spec, Hloop.
  unfold build_application, and_then, run, say, write_binary.
  by rewrite Htidy, Hbuild.
Qed.


(** What packaging does to a state. *)
Lemma packaging_without_socket env st :
  docker_socket env = false →
  packaging env st = (with_warning st, Exit 0).
Proof. intros Hs. unfold packaging. by rewrite Hs. Qed.

Lemma packaging_image_built env st :
  docker_socket env = true → image_built env →
  packaging env st =
  (with_image env st,
   if decide (rm_context env = 0) then Next else Exit (rm_context env)).
Proof.
  intros Hs (Hm & Hc & Hw & Hb). unfold packaging. rewrite Hs.
  unfold and_then, run, add_image, say. by rewrite Hm, Hc, Hw, Hb.
Qed.

Lemma packaging_image_not_built env st :
  docker_socket env = true → ¬ image_built env →
  ∃ code, code ≠ 0 ∧ packaging env st = (st, Exit code).
Proof.
  intros Hs Hnot. unfold packaging. rewrite Hs.
  unfold and_then, run, add_image, say.
  destruct (decide (mkdir_context env = 0)) as [Hm|Hm]; [|by eexists].
  destruct (decide (cp_binary env = 0)) as [Hc|Hc]; [|by eexists].
  destruct (decide (write_dockerfile env = 0)) as [Hw|Hw]; [|by eexists].
  destruct (decide (docker_build env = 0)) as [Hb|Hb]; [|by eexists].
  by destruct Hnot.
Qed.

(** The exit status of the packaging step and the images it leaves. *)
Lemma packaging_status env st :
  (exit_status (packaging env st) ≠ 0 ↔ docker_socket env = true ∧ ¬ packaged env)
  ∧ images (packaging env st).1
    = (if decide (docker_socket env = true ∧ image_built env)
       then images st ++ [image_of env] else images st)
  ∧ binary (packaging env st).1 = binary st
  ∧ imports_go (packaging env st).1 = imports_go st
  ∧ core_manifest (packaging env st).1 = core_manifest st.
Proof.
  destruct (decide (docker_socket env = true ∧ image_built env))
    as [[Hs Hi]|Hnot].
  - rewrite (packaging_image_built env st Hs Hi).
    unfold exit_status, packaged. simpl.
    split; [|done]. case_decide; simpl; naive_solver.
  - destruct (docker_socket env) eqn:Hs.
    + assert (¬ image_built env) as Hi by naive_solver.
      destruct (packaging_image_not_built env st Hs Hi) as (code & Hcode & ->).
      unfold exit_status, packaged. simpl.
      split; [|done]. naive_solver.
    + rewrite (packaging_without_socket env st Hs).
      unfold exit_status. simpl.
      split; [|done]. naive_solver.
Qed.
End script_facts.

(** ** The build pipeline: main statements *)





(** C6, as the script has it.  The packaging step ends the script with
    a non-zero status exactly when the Docker socket is there and one of
    its commands fails: [mkdir -p], [cp], [cat >], [docker build] or
    [rm -rf].  Without the socket the warning is printed, no image is
    made and the status is 0; after a run whose earlier stages went
    through, the binary is then the only artifact.  With the socket, a
    failing [docker build] ends the run with a non-zero status and
    without image. *)
Theorem packaging_exit_status (env : build_env) (st : build_state) :
  (exit_status (packaging env st) ≠ 0
   ↔ docker_socket env = true
     ∧ (mkdir_context env ≠ 0 ∨ cp_binary env ≠ 0 ∨ write_dockerfile env ≠ 0
        ∨ docker_build env ≠ 0 ∨ rm_context env ≠ 0))
  ∧ (docker_socket env = false →
       exit_status (packaging env st) = 0
       ∧ EchoDockerSocketWarning ∈ output (packaging env st).1
       ∧ images (packaging env st).1 = images st
       ∧ binary (packaging env st).1 = binary st)
  ∧ (docker_socket env = true → docker_build env ≠ 0 →
       exit_status (packaging env st) ≠ 0
       ∧ images (packaging env st).1 = images st)
  ∧ (compiled env →
       (exit_status (build_sh env st) ≠ 0
        ↔ docker_socket env = true
          ∧ (mkdir_context env ≠ 0 ∨ cp_binary env ≠ 0
             ∨ write_dockerfile env ≠ 0 ∨ docker_build env ≠ 0
             ∨ rm_context env ≠ 0))
       ∧ (docker_socket env = false →
            exit_status (build_sh env st) = 0
            ∧ EchoDockerSocketWarning ∈ output (build_sh env st).1
            ∧ binary (build_sh env st).1 = true
            ∧ images (build_sh env st).1 = images st)
       ∧ (docker_socket env = true → docker_build env ≠ 0 →
            exit_status (build_sh env st) ≠ 0
            ∧ images (build_sh env st).1 = images st)).
Proof.
  assert (¬ packaged env
          ↔ mkdir_context env ≠ 0 ∨ cp_binary env ≠ 0 ∨ write_dockerfile env ≠ 0
            ∨ docker_build env ≠ 0 ∨ rm_context env ≠ 0) as Hfail.
  { unfold packaged, image_built.
    destruct (decide (mkdir_context env = 0)), (decide (cp_binary env = 0)),
      (decide (write_dockerfile env = 0)), (decide (docker_build env = 0)),
      (decide (rm_context env = 0)); naive_solver. }
  assert (∀ st',
    (exit_status (packaging env st') ≠ 0
     ↔ docker_socket env = true
       ∧ (mkdir_context env ≠ 0 ∨ cp_binary env ≠ 0 ∨ write_dockerfile env ≠ 0
          ∨ docker_build env ≠ 0 ∨ rm_context env ≠ 0))
    ∧ (docker_socket env = false →
         exit_status (packaging env st') = 0
         ∧ EchoDockerSocketWarning ∈ output (packaging env st').1
         ∧ images (packaging env st').1 = images st'
         ∧ binary (packaging env st').1 = binary st')
    ∧ (docker_socket env = true → docker_build env ≠ 0 →
         exit_status (packaging env st') ≠ 0
         ∧ images (packaging env st').1 = images st')) as Hpack.
  { intros st'.
    destruct (packaging_status env st') as (Hiff & Himg & Hbin & _).
    split; [by rewrite <-Hfail|]. split.
    - intros Hs. rewrite (packaging_without_socket env st' Hs).
      unfold exit_status, with_warning. simpl. repeat split; try done.
      apply elem_of_app. left. apply elem_of_app. right. by left.
    - intros Hs Hb. split.
      + apply Hiff. split; [done|]. apply Hfail. tauto.
      + rewrite Himg, decide_False; [done|].
        unfold image_built. naive_solver. }
  split; [apply Hpack|]. split; [apply Hpack|]. split; [apply Hpack|].
  intros Hcomp.
  pose proof Hcomp as ((_ & _ & [source Hsrc] & _) & _).
  rewrite (build_sh_compiled env st source Hcomp Hsrc).
  match goal with |- context [packaging env ?s] => set (st3 := s) end.
  destruct (Hpack st3) as (Hiff & Habsent & Hfailed).
  split; [exact Hiff|]. split; [|exact Hfailed].
  intros Hsock.
  destruct (Habsent Hsock) as (Hexit & Hwarn & Himg & Hbin).
  by rewrite Hexit, Himg, Hbin.
Qed.

Lemma packaging_exit_status_witness :
  exit_status (build_sh (successful_env example_policies false 0) fresh_state) = 0
  ∧ binary (build_sh (successful_env example_policies false 0) fresh_state).1 = true
  ∧ images (build_sh (successful_env example_policies false 0) fresh_state).1 = []
  ∧ exit_status (build_sh (successful_env example_policies true 1) fresh_state) ≠ 0.
Proof.
  destruct (packaging_exit_status
              (successful_env example_policies false 0) fresh_state)
    as (_ & _ & _ & Hrun).
  destruct Hrun as (_ & Habsent & _); [vm_compute; intuition eauto|].
  destruct (Habsent eq_refl) as (Hexit & _ & Hbin & Himg).
  split; [exact Hexit|]. split; [exact Hbin|]. split; [exact Himg|].
  destruct (packaging_exit_status
              (successful_env example_policies true 1) fresh_state)
    as (_ & _ & _ & Hrun).
  destruct Hrun as (_ & _ & Hfailed); [vm_compute; intuition eauto|].
  apply Hfailed; [reflexivity|discriminate].
Defined.

(** C6 as stated fails: with the socket mounted, a failing [cp] of the
    binary into the build context ends the script with a non-zero status
    although [docker build] did not fail (it was never called). *)
Lemma packaging_exit_status_counterexample :
  ¬ (∀ env st,
       exit_status (packaging env st) ≠ 0
       ↔ docker_socket env = true ∧ docker_build env ≠ 0).
Proof.
  intros Hiff.
  destruct (proj1 (Hiff cp_failing_env fresh_state)) as [_ Hbuild].
  - vm_compute. discriminate.
  - by apply Hbuild.
Qed.

(** ** Discovery errors *)

Section discovery_facts.
Implicit Types (env : build_env) (st : build_state) (dirs : list policy_dir).

Lemma discover_malformed dirs d :
  d ∈ dirs → scan_dir d = MalformedModule → discover dirs = None.
Proof.
  intros Hin Hbad. unfold discover. rewrite decide_True; [done|].
  apply Exists_exists. eauto.
Qed.

Lemma omap_keys_collide {A B} (f : A → option (string * B)) (l : list A)
    i j x y a b :
  i < j → l !! i = Some x → l !! j = Some y →
  f x = Some a → f y = Some b → a.1 = b.1 →
  ¬ NoDup (omap f l).*1.
Proof.
  intros Hlt Hi Hj Hx Hy Hkey Hnd.
  rewrite <-(take_drop_middle l i x Hi) in Hnd.
  rewrite omap_app in Hnd. simpl in Hnd. rewrite Hx in Hnd.
  rewrite fmap_app, fmap_cons in Hnd.
  apply NoDup_app in Hnd as (_ & _ & Hnd).
  apply NoDup_cons in Hnd as [Hfresh _]. apply Hfresh.
  rewrite Hkey. apply list_elem_of_fmap. exists b. split; [done|].
  apply list_elem_of_omap. exists y. split; [|done].
  apply list_elem_of_lookup. exists (j - S i).
  rewrite lookup_drop. by replace (S i + (j - S i)) with j by lia.
Qed.

Lemma discover_collision dirs i j d1 d2 identifier :
  i ≠ j → dirs !! i = Some d1 → dirs !! j = Some d2 →
  scan_dir d1 = FoundModule identifier (dir_name d1) →
  scan_dir d2 = FoundModule identifier (dir_name d2) →
  discover dirs = None.
Proof.
  intros Hne Hi Hj H1 H2. unfold discover. case_decide; [done|].
  rewrite decide_False; [done|].
  assert (found_module d1 = Some (identifier, dir_name d1)) as Hf1
    by (unfold found_module; by rewrite H1).
  assert (found_module d2 = Some (identifier, dir_name d2)) as Hf2
    by (unfold found_module; by rewrite H2).
  destruct (decide (i < j)) as [Hlt|Hge].
  - by eapply (omap_keys_collide found_module dirs i j d1 d2).
  - eapply (omap_keys_collide found_module dirs j i d2 d1); [lia|done..].
Qed.

Lemma build_sh_discovery_error env st :
  discover (policy_dirs env) = None →
  exit_status (build_sh env st) ≠ 0 ∧ (build_sh env st).1 = st.
Proof.
  intros Hnone. apply build_sh_not_generated.
  intros (_ & _ & [source Hsrc] & _). unfold generate in Hsrc.
  by rewrite Hnone in Hsrc.
Qed.
End discovery_facts.

(** C3.  A directory whose manifest yields no import identifier makes the
    run end with a non-zero status before anything is changed: the core
    manifest and the aggregator source are those of the start. *)
Theorem malformed_module_aborts
    (env : build_env) (st : build_state) (d : policy_dir) (lines : list string) :
  d ∈ policy_dirs env →
  go_mod d = Some lines →
  module_path_of lines = EmptyString →
  exit_status (build_sh env st) ≠ 0
  ∧ core_manifest (build_sh env st).1 = core_manifest st
  ∧ imports_go (build_sh env st).1 = imports_go st
  ∧ (build_sh env st).1 = st.
Proof.
  intros Hin Hmod Hempty.
  destruct (build_sh_discovery_error env st) as [Hexit Hsame].
  { apply (discover_malformed _ d Hin). unfold scan_dir.
    rewrite Hmod. simpl. by rewrite decide_True. }
  by rewrite Hsame.
Qed.

Lemma malformed_module_aborts_witness :
  exit_status
    (build_sh (successful_env (malformed_dir :: example_policies) false 0)
       fresh_state) ≠ 0
  ∧ core_manifest
      (build_sh (successful_env (malformed_dir :: example_policies) false 0)
         fresh_state).1 = ∅
  ∧ imports_go
      (build_sh (successful_env (malformed_dir :: example_policies) false 0)
         fresh_state).1 = None.
Proof.
  destruct (malformed_module_aborts
              (successful_env (malformed_dir :: example_policies) false 0)
              fresh_state malformed_dir ["go 1.21"])
    as (Hexit & Hmanifest & Himports & _).
  - vm_compute. left.
  - reflexivity.
  - reflexivity.
  - split; [exact Hexit|]. split; [exact Hmanifest|exact Himports].
Defined.

(** C2.  Two different policy modules that declare the same import
    identifier make the run end with a non-zero status at discovery,
    before the rewrite loop: the core manifest is that of the start, so
    neither module's directive is written. *)
Theorem colliding_identifiers_abort
    (env : build_env) (st : build_state)
    (i j : nat) (d1 d2 : policy_dir) (identifier : string) :
  i ≠ j →
  policy_dirs env !! i = Some d1 →
  policy_dirs env !! j = Some d2 →
  scan_dir d1 = FoundModule identifier (dir_name d1) →
  scan_dir d2 = FoundModule identifier (dir_name d2) →
  exit_status (build_sh env st) ≠ 0
  ∧ core_manifest (build_sh env st).1 = core_manifest st
  ∧ imports_go (build_sh env st).1 = imports_go st
  ∧ (build_sh env st).1 = st.
Proof.
  intros Hne Hi Hj H1 H2.
  destruct (build_sh_discovery_error env st) as [Hexit Hsame].
  { by apply (discover_collision _ i j d1 d2 identifier). }
  by rewrite Hsame.
Qed.

Lemma colliding_identifiers_abort_witness :
  exit_status
    (build_sh (successful_env colliding_policies false 0) fresh_state) ≠ 0
  ∧ core_manifest
      (build_sh (successful_env colliding_policies false 0) fresh_state).1 = ∅
  ∧ imports_go
      (build_sh (successful_env colliding_policies false 0) fresh_state).1 = None.
Proof.
  destruct (colliding_identifiers_abort
              (successful_env colliding_policies false 0) fresh_state 0 1
              (module_dir "first" "github.com/example/policies/shared")
              (module_dir "second" "github.com/example/policies/shared")
              "github.com/example/policies/shared")
    as (Hexit & Hmanifest & Himports & _);
    [lia|reflexivity..|].
  split; [exact Hexit|]. split; [exact Hmanifest|exact Himports].
Defined.

(** The loop of [build.sh] on its own makes no such check: it skips a
    [go.mod] without a module path, and of two directories that declare
    one module path the later one has its directive kept.  It also takes
    directories the scanner does not count as modules. *)
Example rewrite_loop_skips_empty_module_path :
  rewrite_manifest (λ _ _, 0) [malformed_dir] ∅ = ∅.
Proof. reflexivity. Qed.

Example rewrite_loop_last_directory_wins :
  rewrite_manifest (λ _ _, 0) colliding_policies ∅
  = {[ ("github.com/example/policies/shared", EmptyString)
       := ("/policies/second/", EmptyString) ]}.
Proof. apply (bool_decide_unpack _). vm_compute. exact I. Qed.

Example build_sh_shadowed_module :
  exit_status (build_sh (successful_env shadowed_policies false 0) fresh_state) = 0
  ∧ core_manifest
      (build_sh (successful_env shadowed_policies false 0) fresh_state).1
    = {[ ("github.com/example/policies/shared", EmptyString)
         := ("/policies/second/", EmptyString) ]}.
Proof.
  split; [reflexivity|]. apply (bool_decide_unpack _). vm_compute. exact I.
Qed.

(** A [go.mod] with CRLF line ends: the carriage return separates fields
    for [awk], so it is not part of the module path, and the directive is
    kept under the path itself. *)
Example rewrite_loop_crlf :
  module_path_of
    ["module example.com/a" +:+ String "013" EmptyString;
     String "013" EmptyString;
     "go 1.21" +:+ String "013" EmptyString]
  = "example.com/a"
  ∧ core_manifest
      (rewrite_loop (λ _ _, 0)
         [{| dir_name := "a";
             go_mod := Some ["module example.com/a" +:+ String "013" EmptyString;
                             String "013" EmptyString;
                             "go 1.21" +:+ String "013" EmptyString];
             has_policy_go := true |}]
         fresh_state).1
    = {[ ("example.com/a", EmptyString) := ("/policies/a/", EmptyString) ]}.
Proof.
  split; [reflexivity|]. apply (bool_decide_unpack _). vm_compute. exact I.
Qed.

(** ** Determinism of the generation *)

Section generation_facts.
Implicit Types (dirs : list policy_dir) (found : list (string * string)).

#[local] Instance by_identifier_trans : Transitive by_identifier.
Proof. intros a b c. unfold by_identifier. apply transitivity. Qed.

#[local] Instance by_identifier_total : Total by_identifier.
Proof. intros a b. unfold by_identifier. apply total, _. Qed.

Lemma unique_identifier found a b :
  NoDup found.*1 → a ∈ found → b ∈ found → a.1 = b.1 → a = b.
Proof.
  intros Hnd Ha Hb Hkey. destruct a as [ka va], b as [kb vb]. simpl in Hkey.
  subst kb. f_equal.
  pose proof (elem_of_list_to_map_1 (M:=gmap string) found ka va Hnd Ha) as H1.
  pose proof (elem_of_list_to_map_1 (M:=gmap string) found ka vb Hnd Hb) as H2.
  congruence.
Qed.

(** Sorting by import identifier forgets the order of the traversal. *)
Lemma merge_sort_by_identifier found found' :
  NoDup found.*1 → found ≡ₚ found' →
  merge_sort by_identifier found = merge_sort by_identifier found'.
Proof.
  intros Hnd Hperm. apply (StronglySorted_unique_strong by_identifier).
  - intros a b Ha Hb Hab Hba.
    rewrite merge_sort_Permutation in Ha.
    rewrite merge_sort_Permutation, <-Hperm in Hb.
    apply (unique_identifier found); [done..|].
    unfold by_identifier in *. by apply (anti_symm String.le).
  - apply StronglySorted_merge_sort; apply _.
  - apply StronglySorted_merge_sort; apply _.
  - by rewrite !merge_sort_Permutation.
Qed.

Lemma discover_Permutation dirs dirs' :
  dirs ≡ₚ dirs' → discover dirs = discover dirs'.
Proof.
  intros Hperm. unfold discover.
  assert (omap found_module dirs ≡ₚ omap found_module dirs') as Hfound
    by (by rewrite Hperm).
  destruct (decide (Exists _ dirs)) as [Hex|Hex];
    destruct (decide (Exists _ dirs')) as [Hex'|Hex']; try done.
  - destruct Hex'. by rewrite <-Hperm.
  - destruct Hex. by rewrite Hperm.
  - destruct (decide (NoDup (omap found_module dirs).*1)) as [Hnd|Hnd];
      destruct (decide (NoDup (omap found_module dirs').*1)) as [Hnd'|Hnd'];
      try done.
    + f_equal. by apply merge_sort_by_identifier.
    + destruct Hnd'. by rewrite <-Hfound.
    + destruct Hnd. by rewrite Hfound.
Qed.

Lemma discover_sorted dirs found :
  discover dirs = Some found →
  StronglySorted String.le found.*1 ∧ found ≡ₚ omap found_module dirs.
Proof.
  unfold discover. repeat case_decide; try done. intros [= <-]. split.
  - apply (StronglySorted_fmap fst by_identifier); [done|].
    apply StronglySorted_merge_sort; apply _.
  - apply merge_sort_Permutation.
Qed.

Lemma import_identifier_assign_aliases used found :
  import_identifier <$> assign_aliases used found = found.*1.
Proof.
  revert used. induction found as [|[identifier dir] found IH]; intros used;
    [done|].
  simpl. f_equal. apply IH.
Qed.

(** The aliases are pairwise distinct and avoid the names in use. *)
Lemma generated_alias_assign_aliases used found :
  NoDup (generated_alias <$> assign_aliases used found)
  ∧ Forall (λ alias, alias ∉ used) (generated_alias <$> assign_aliases used found).
Proof.
  revert used. induction found as [|[identifier dir] found IH]; intros used.
  { split; constructor. }
  simpl. destruct (IH ({[fresh_string_of_set (alias_base identifier) used]} ∪ used))
    as [Hnd Hfresh].
  split.
  - constructor; [|done]. intros Hin.
    rewrite Forall_forall in Hfresh. apply (Hfresh _ Hin). set_solver.
  - constructor; [apply fresh_string_of_set_fresh|].
    eapply Forall_impl; [exact Hfresh|]. intros alias. simpl. set_solver.
Qed.

Lemma all_chars_app P s1 s2 :
  all_chars P (s1 +:+ s2) = all_chars P s1 && all_chars P s2.
Proof. induction s1 as [|c s1 IH]; simpl; [done|]. by rewrite IH, andb_assoc. Qed.

Lemma all_chars_impl (P Q : ascii → bool) s :
  (∀ c, P c = true → Q c = true) → all_chars P s = true → all_chars Q s = true.
Proof.
  intros HPQ. induction s as [|c s IH]; simpl; [done|].
  rewrite !andb_true_iff. intros [Hc Hs]. split; [by apply HPQ|by apply IH].
Qed.

Lemma pretty_N_go_digits (x : N) s :
  all_chars is_digit s = true → all_chars is_digit (pretty_N_go x s) = true.
Proof.
  revert s. induction (N.lt_wf_0 x) as [x _ IH]; intros s Hs.
  destruct (decide (x = 0%N)) as [->|Hx]; [by rewrite pretty_N_go_0|].
  rewrite pretty_N_go_step by lia. apply IH; [apply N.div_lt; lia|].
  simpl. rewrite Hs, andb_true_r.
  unfold pretty_N_char. by repeat case_match.
Qed.

Lemma pretty_N_digits (x : N) : all_chars is_digit (pretty x) = true.
Proof.
  unfold pretty, pretty_N. case_decide; [done|]. by apply pretty_N_go_digits.
Qed.

(** A fresh name is the given one, or the given one with a number after it. *)
Lemma fresh_string_cases {A} (m : stringmap A) s :
  fresh_string s m = s ∨ ∃ n : N, fresh_string s m = s +:+ pretty n.
Proof.
  unfold fresh_string. destruct (m !! s) as [a|] eqn:Hs; [clear a Hs|by left].
  right.
  generalize 0%N (wf_guard 32 (fresh_string_R_wf s m) 0%N); revert m.
  fix FIX 3; intros m n [?]; simpl; unfold fresh_string_go at 1; simpl.
  destruct (Some_dec (m !! _)) as [[??]|?]; eauto.
Qed.

Lemma sanitize_chars s :
  all_chars (λ c, is_letter c || is_digit c) (sanitize s) = true.
Proof.
  induction s as [|c s IH]; simpl; [done|]. rewrite IH, andb_true_r.
  by destruct (is_letter c || is_digit c) eqn:Hc.
Qed.

Lemma alias_base_identifier identifier :
  go_identifier (alias_base identifier) = true.
Proof.
  unfold alias_base.
  pose proof (sanitize_chars (final_segment identifier)) as Hchars.
  destruct (sanitize (final_segment identifier)) as [|c rest]; [done|].
  simpl in Hchars. apply andb_true_iff in Hchars as [Hc Hrest].
  destruct (is_digit c) eqn:Hdigit; simpl.
  - by rewrite Hdigit, orb_true_r, Hrest.
  - rewrite orb_false_r in Hc. by rewrite Hc, Hrest.
Qed.

Lemma go_identifier_app s digits :
  go_identifier s = true → all_chars is_digit digits = true →
  go_identifier (s +:+ digits) = true.
Proof.
  destruct s as [|c s]; [done|]. simpl. rewrite !andb_true_iff.
  intros [Hc Hs] Hdigits. split; [done|].
  rewrite all_chars_app, Hs. simpl.
  apply (all_chars_impl is_digit); [|done].
  intros c' ->. apply orb_true_r.
Qed.

Lemma go_identifier_assign_aliases used found :
  Forall (λ alias, go_identifier alias = true)
    (generated_alias <$> assign_aliases used found).
Proof.
  revert used. induction found as [|[identifier dir] found IH]; intros used;
    [constructor|].
  simpl. constructor; [|apply IH].
  unfold fresh_string_of_set.
  destruct (fresh_string_cases (mapset.mapset_car used) (alias_base identifier))
    as [->|[n ->]].
  - apply alias_base_identifier.
  - apply go_identifier_app;
      [apply alias_base_identifier|apply pretty_N_digits].
Qed.

Lemma generate_Permutation dirs dirs' :
  dirs ≡ₚ dirs' → generate dirs = generate dirs'.
Proof. intros Hperm. unfold generate. by rewrite (discover_Permutation _ _ Hperm). Qed.

(** The text of the aggregator source, given the aliases and import
    identifiers in the order of the text. *)
Lemma render_text ms :
  render ms
  = "// Code generated by import-generator. DO NOT EDIT." +:+ newline
    +:+ newline +:+ "package main" +:+ newline +:+ newline
    +:+ "import (" +:+ newline
    +:+ String.concat EmptyString
          ((λ m, tab +:+ m.1 +:+ " " +:+ quote +:+ m.2 +:+ quote +:+ newline)
             <$> ((λ m, (generated_alias m, import_identifier m)) <$> ms))
    +:+ ")" +:+ newline +:+ newline
    +:+ "func init() {" +:+ newline
    +:+ String.concat EmptyString
          ((λ m, tab +:+ "RegisterPolicy(&" +:+ m.1 +:+ ".Policy{})" +:+ newline)
             <$> ((λ m, (generated_alias m, import_identifier m)) <$> ms))
    +:+ "}" +:+ newline.
Proof. unfold render. by rewrite <-!list_fmap_compose. Qed.
End generation_facts.

(** C8.  For a fixed set of directories the generated aggregator source
    does not depend on the order in which the traversal met them: two
    generations give the same text.  The text is the header, one import
    line per module and, in the same order, one registration line per
    module; the lines follow the import identifiers in sorted order,
    whatever the order of the traversal, and the aliases in them are
    pairwise distinct Go identifiers, none of them a reserved name. *)
Theorem generate_deterministic (dirs dirs' : list policy_dir) :
  dirs ≡ₚ dirs' →
  generate dirs = generate dirs'
  ∧ (is_Some (generate dirs) ↔ is_Some (discover dirs))
  ∧ ∀ source,
      generate dirs = Some source →
      ∃ imports : list (string * string),
        generate dirs' = Some source
        ∧ source
          = "// Code generated by import-generator. DO NOT EDIT." +:+ newline
            +:+ newline +:+ "package main" +:+ newline +:+ newline
            +:+ "import (" +:+ newline
            +:+ String.concat EmptyString
                  ((λ m, tab +:+ m.1 +:+ " " +:+ quote +:+ m.2 +:+ quote
                           +:+ newline) <$> imports)
            +:+ ")" +:+ newline +:+ newline
            +:+ "func init() {" +:+ newline
            +:+ String.concat EmptyString
                  ((λ m, tab +:+ "RegisterPolicy(&" +:+ m.1 +:+ ".Policy{})"
                           +:+ newline) <$> imports)
            +:+ "}" +:+ newline
        ∧ StronglySorted String.le imports.*2
        ∧ NoDup imports.*2
        ∧ imports.*2 ≡ₚ (omap found_module dirs).*1
        ∧ NoDup imports.*1
        ∧ Forall (λ alias, go_identifier alias = true ∧ alias ∉ reserved_names)
            imports.*1.
Proof.
  intros Hperm. split; [by apply generate_Permutation|]. split.
  { unfold generate. destruct (discover dirs); simpl; by rewrite <-!not_eq_None_Some. }
  intros source Hsource.
  pose proof Hsource as Hsource'. rewrite (generate_Permutation _ _ Hperm) in Hsource'.
  unfold generate in Hsource.
  destruct (discover dirs) as [found|] eqn:Hfound; [|done].
  simpl in Hsource. injection Hsource as <-.
  destruct (discover_sorted _ _ Hfound) as [Hsorted Hsame].
  assert (NoDup found.*1) as Hids.
  { unfold discover in Hfound. repeat case_decide; try done.
    injection Hfound as <-. by rewrite merge_sort_Permutation. }
  destruct (generated_alias_assign_aliases reserved_names found)
    as [Hnd Hfresh].
  pose proof (go_identifier_assign_aliases reserved_names found) as Hgo.
  set (ms := assign_aliases reserved_names found) in *.
  exists ((λ m, (generated_alias m, import_identifier m)) <$> ms).
  assert (((λ m, (generated_alias m, import_identifier m)) <$> ms).*2
          = found.*1) as ->.
  { rewrite <-list_fmap_compose. apply import_identifier_assign_aliases. }
  assert (((λ m, (generated_alias m, import_identifier m)) <$> ms).*1
          = generated_alias <$> ms) as ->.
  { by rewrite <-list_fmap_compose. }
  split; [done|]. split; [apply render_text|]. split; [done|].
  split; [done|]. split; [by rewrite Hsame|]. split; [done|].
  apply Forall_and. by split.
Qed.

Lemma generate_deterministic_witness :
  generate example_policies = generate (reverse example_policies)
  ∧ is_Some (generate (reverse example_policies)).
Proof.
  destruct (generate_deterministic example_policies (reverse example_policies))
    as (Hsame & Hsome & _).
  - apply perm_swap.
  - split; [exact Hsame|]. rewrite <-Hsame. apply Hsome.
    vm_compute. eexists. reflexivity.
Defined.

(** The aggregator source for the two example policies, met in either
    order. *)
Example generate_example_policies :
  generate (reverse example_policies)
  = Some
      ("// Code generated by import-generator. DO NOT EDIT." +:+ newline
       +:+ newline +:+ "package main" +:+ newline +:+ newline
       +:+ "import (" +:+ newline
       +:+ tab +:+ "uppercase_policy " +:+ quote
       +:+ "github.com/example/policies/uppercase-policy" +:+ quote +:+ newline
       +:+ tab +:+ "validator_policy " +:+ quote
       +:+ "github.com/example/policies/validator-policy" +:+ quote +:+ newline
       +:+ ")" +:+ newline +:+ newline
       +:+ "func init() {" +:+ newline
       +:+ tab +:+ "RegisterPolicy(&uppercase_policy.Policy{})" +:+ newline
       +:+ tab +:+ "RegisterPolicy(&validator_policy.Policy{})" +:+ newline
       +:+ "}" +:+ newline).
Proof. by vm_compute. Qed.

(** Final path segments that collide, one of them with the name the
    discriminator would have given, and one that is a Go keyword. *)
Example assign_aliases_collisions :
  generated_alias
    <$> assign_aliases reserved_names
          [("example.com/a/foo", "a"); ("example.com/b/foo", "b");
           ("example.com/c/foo0", "c"); ("example.com/d/func", "d");
           ("example.com/e/rate-limit.v2", "e")]
  = ["foo"; "foo0"; "foo00"; "func0"; "rate_limit_v2"].
Proof. by vm_compute. Qed.

(** ** Further properties of the registry *)

Section registry_lookups.
Implicit Types (r : PolicyRegistry) (p : Policy) (ps : list Policy).

Lemma accepted_app ps1 ps2 : accepted (ps1 ++ ps2) = accepted ps1 ++ accepted ps2.
Proof. unfold accepted. apply filter_app. Qed.

Lemma Get_Register r p name :
  Get (Register r p).1 name =
  if decide (Validate p = None ∧ Name p = name) then Some p else Get r name.
Proof.
  unfold Register, Get. destruct (Validate p) as [err|] eqn:Hv.
  - case_decide as Hc; [by destruct Hc|done].
  - cbn [fst policies]. rewrite lookup_insert.
    repeat case_decide; naive_solver.
Qed.

(** A lookup sees the latest accepted registration under the name. *)
Lemma Get_register_all ps r name :
  Get (register_all ps r) name =
  match last (filter (λ p, Name p = name) (accepted ps)) with
  | Some p => Some p
  | None => Get r name
  end.
Proof.
  revert r. induction ps as [|p ps IH] using rev_ind; intros r; [done|].
  rewrite register_all_app, accepted_app, filter_app. simpl.
  rewrite Get_Register, IH. unfold accepted. rewrite (filter_cons _ p), filter_nil.
  destruct (decide (Validate p = None)) as [Hv|Hv].
  - rewrite filter_cons, filter_nil.
    destruct (decide (Name p = name)) as [Hn|Hn].
    + rewrite decide_True by done. by rewrite last_snoc.
    + rewrite decide_False by (by intros [_ ?]). by rewrite app_nil_r.
  - rewrite decide_False by (by intros [? _]).
    by rewrite filter_nil, app_nil_r.
Qed.

Lemma filter_name_unique ps name :
  NoDup (Name <$> ps) → length (filter (λ p, Name p = name) ps) ≤ 1.
Proof.
  induction ps as [|p ps IH]; [simpl; lia|].
  rewrite fmap_cons, NoDup_cons. intros [Hfresh Hnd].
  rewrite filter_cons. case_decide as Hn; [|by apply IH].
  assert (filter (λ p, Name p = name) ps = []) as ->; [|simpl; lia].
  destruct (filter _ ps) as [|q l] eqn:Hf; [done|].
  assert (q ∈ filter (λ p, Name p = name) ps) as Hq by (rewrite Hf; left).
  apply list_elem_of_filter in Hq as [Hqn Hq]. destruct Hfresh.
  rewrite Hn, <-Hqn. by apply list_elem_of_fmap_2.
Qed.

Lemma short_Permutation {A} (l1 l2 : list A) :
  length l1 ≤ 1 → l1 ≡ₚ l2 → l1 = l2.
Proof.
  destruct l1 as [|x [|y l1]]; simpl; intros Hlen Hperm; [| |lia].
  - by apply Permutation_nil_l in Hperm.
  - by apply Permutation_singleton_l in Hperm.
Qed.
End registry_lookups.

(** X1.  In a registry built by [Register] calls from the empty one,
    [Get] returns the policy of the latest accepted call made under that
    name, and reports a missing key exactly when no accepted policy bears
    the name. *)
Theorem Get_latest_registration (ps : list Policy) (name : string) :
  Get (register_all ps NewPolicyRegistry) name
    = last (filter (λ p, Name p = name) (accepted ps))
  ∧ (Get (register_all ps NewPolicyRegistry) name = None
     ↔ name ∉ Name <$> accepted ps).
Proof.
  assert (Get (register_all ps NewPolicyRegistry) name
          = last (filter (λ p, Name p = name) (accepted ps))) as Hget.
  { rewrite Get_register_all. unfold Get. simpl. rewrite lookup_empty.
    by destruct (last _). }
  split; [done|]. rewrite Hget, last_None. split.
  - intros Hnil Hin. apply list_elem_of_fmap in Hin as (p & -> & Hp).
    by apply (filter_nil_not_elem_of _ _ p Hnil).
  - intros Hnot. destruct (filter _ _) as [|q l] eqn:Hf; [done|].
    assert (q ∈ filter (λ p, Name p = name) (accepted ps)) as Hq
      by (rewrite Hf; left).
    apply list_elem_of_filter in Hq as [<- Hq]. destruct Hnot.
    by apply list_elem_of_fmap_2.
Qed.

(** X2.  The order of the [Register] calls does not matter when the
    accepted policies bear pairwise different names: two orders of the
    same calls give the same registry. *)
Theorem register_order_irrelevant (ps ps' : list Policy) :
  ps ≡ₚ ps' →
  NoDup (Name <$> accepted ps) →
  register_all ps NewPolicyRegistry = register_all ps' NewPolicyRegistry.
Proof.
  intros Hperm Hnd.
  assert (∀ r r', policies r = policies r' → r = r') as Hext.
  { intros [m] [m']. simpl. by intros ->. }
  apply Hext, map_eq. intros name.
  change (Get (register_all ps NewPolicyRegistry) name
          = Get (register_all ps' NewPolicyRegistry) name).
  rewrite !Get_register_all.
  assert (filter (λ p, Name p = name) (accepted ps)
          = filter (λ p, Name p = name) (accepted ps')) as ->; [|done].
  apply short_Permutation; [by apply filter_name_unique|].
  unfold accepted. by rewrite Hperm.
Qed.

Lemma register_order_irrelevant_witness :
  register_all [echo_policy "alpha"; invalid_policy "gamma"; echo_policy "beta"]
    NewPolicyRegistry
  = register_all [echo_policy "beta"; echo_policy "alpha"; invalid_policy "gamma"]
      NewPolicyRegistry.
Proof.
  apply register_order_irrelevant.
  - apply (Permutation_cons_append [echo_policy "alpha"; invalid_policy "gamma"]
             (echo_policy "beta")) || (symmetry; apply Permutation_cons_append).
  - vm_compute. repeat constructor; set_solver.
Defined.

(** X3.  Every entry of a registry built by [Register] calls is stored
    under the name its policy reports, belongs to a policy that passed
    [Validate], and came from one of the calls. *)
Theorem registry_entries_valid (ps : list Policy) (name : string) (p : Policy) :
  Get (register_all ps NewPolicyRegistry) name = Some p →
  Name p = name ∧ Validate p = None ∧ p ∈ ps.
Proof.
  rewrite Get_register_all. unfold Get. simpl. rewrite lookup_empty.
  destruct (last _) as [q|] eqn:Hlast; [|done]. intros [= ->].
  apply last_Some_elem_of, list_elem_of_filter in Hlast as [Hn Hacc].
  unfold accepted in Hacc. apply list_elem_of_filter in Hacc as [Hv Hin].
  done.
Qed.

Lemma registry_entries_valid_witness :
  Name validator_policy = "validator-policy"
  ∧ Validate validator_policy = None
  ∧ validator_policy ∈ [invalid_policy "validator-policy"; validator_policy].
Proof.
  apply (registry_entries_valid
           [invalid_policy "validator-policy"; validator_policy]
           "validator-policy" validator_policy).
  reflexivity.
Defined.

Lemma Get_latest_registration_witness :
  Get (register_all [failing_policy "audit"; echo_policy "audit"]
         NewPolicyRegistry) "audit" = Some (echo_policy "audit")
  ∧ Get (register_all [invalid_policy "audit"] NewPolicyRegistry) "audit" = None.
Proof.
  split.
  - exact (proj1 (Get_latest_registration
                    [failing_policy "audit"; echo_policy "audit"] "audit")).
  - apply (proj2 (Get_latest_registration [invalid_policy "audit"] "audit")).
    vm_compute. apply not_elem_of_nil.
Defined.

(** X20.  After any sequence of [Register] calls from the empty
    registry, the slices [List] may return are exactly the arrangements
    of the distinct names of the accepted policies: no name is missing,
    none is repeated and none is invented. *)
Theorem List_distinct_accepted_names (ps : list Policy) (names : list string) :
  List (register_all ps NewPolicyRegistry) names
  ↔ names ≡ₚ remove_dups (Name <$> accepted ps).
Proof. unfold List. by rewrite registered_names_register_all. Qed.

(** X21.  [Register] never removes an entry: every name that [Get]
    found before the call is still found after it, and the number of
    entries stays or grows by one. *)
Theorem Register_never_removes (r : PolicyRegistry) (p : Policy) (name : string) :
  (is_Some (Get r name) → is_Some (Get (Register r p).1 name))
  ∧ size (policies r) ≤ size (policies (Register r p).1)
  ∧ size (policies (Register r p).1) ≤ S (size (policies r)).
Proof.
  split.
  - intros Hfound. rewrite Get_Register. by case_decide.
  - rewrite <-!size_dom, dom_Register. destruct (Validate p); [lia|].
    split.
    + apply subseteq_size. set_solver.
    + rewrite size_union_alt, size_singleton.
      assert (size (dom (policies r) ∖ {[Name p]}) ≤ size (dom (policies r)));
        [|lia].
      apply subseteq_size. set_solver.
Qed.

Lemma Register_never_removes_witness :
  is_Some (Get (Register (Register NewPolicyRegistry validator_policy).1
                  (echo_policy "late")).1 "validator-policy").
Proof.
  apply (proj1 (Register_never_removes
                  (Register NewPolicyRegistry validator_policy).1
                  (echo_policy "late") "validator-policy")).
  eexists. reflexivity.
Defined.

Lemma List_distinct_accepted_names_witness :
  List (register_all [echo_policy "alpha"; invalid_policy "gamma";
                      failing_policy "alpha"] NewPolicyRegistry) ["alpha"].
Proof.
  apply (List_distinct_accepted_names
           [echo_policy "alpha"; invalid_policy "gamma"; failing_policy "alpha"]
           ["alpha"]).
  vm_compute. reflexivity.
Defined.

(** ** Further properties of start-up and of [main] *)

Section startup.
Implicit Types (p : Policy) (ps : list Policy) (w : world).

Lemma register_policies_valid ps w :
  Forall (λ p, Validate p = None) ps →
  register_policies ps w =
  ({| registry := register_all ps (registry w);
      trace := trace w ++ registered_events ps |}, Running).
Proof.
  revert w. induction ps as [|p ps IH]; intros w Hall.
  - destruct w. unfold registered_events. simpl. by rewrite app_nil_r.
  - apply Forall_cons in Hall as [Hv Hall]. simpl.
    unfold RegisterPolicy. rewrite (Register_valid _ _ Hv).
    rewrite IH by done. unfold registered_events, emit. simpl.
    by rewrite <-app_assoc.
Qed.

Lemma register_policies_app ps1 ps2 w :
  Forall (λ p, Validate p = None) ps1 →
  register_policies (ps1 ++ ps2) w =
  register_policies ps2
    {| registry := register_all ps1 (registry w);
       trace := trace w ++ registered_events ps1 |}.
Proof.
  revert w. induction ps1 as [|p ps IH]; intros w Hall.
  - destruct w. unfold registered_events. simpl. by rewrite app_nil_r.
  - apply Forall_cons in Hall as [Hv Hall]. simpl.
    unfold RegisterPolicy. rewrite (Register_valid _ _ Hv).
    rewrite IH by done. unfold registered_events, emit. simpl.
    by rewrite <-app_assoc.
Qed.

(** The first rejected policy ends the run of registrations. *)
Lemma register_policies_stops pre bad post err w :
  Forall (λ p, Validate p = None) pre →
  Validate bad = Some err →
  register_policies (pre ++ bad :: post) w =
  ({| registry := register_all pre (registry w);
      trace := trace w ++ registered_events pre
               ++ [LogFatalRegister (Name bad) err] |}, Exited 1).
Proof.
  intros Hpre Hbad. rewrite register_policies_app by done. simpl.
  unfold RegisterPolicy. rewrite (Register_invalid _ _ _ Hbad).
  unfold emit. simpl. by rewrite <-app_assoc.
Qed.

Lemma execute_calls_registered_events ps :
  execute_calls (registered_events ps) = [].
Proof. unfold execute_calls, registered_events. by induction ps. Qed.

(** The first policy that fails [Validate] splits the sequence. *)
Lemma first_invalid ps :
  Exists (λ p, Validate p ≠ None) ps →
  ∃ pre bad post err,
    ps = pre ++ bad :: post
    ∧ Forall (λ p, Validate p = None) pre ∧ Validate bad = Some err.
Proof.
  induction ps as [|p ps IH]; intros Hex; [by apply Exists_nil in Hex|].
  destruct (Validate p) as [err|] eqn:Hv.
  - exists [], p, ps, err. by repeat split.
  - apply Exists_cons in Hex as [Hbad|Hex]; [done|].
    destruct (IH Hex) as (pre & bad & post & err & -> & Hpre & Hbad).
    exists (p :: pre), bad, post, err. split; [done|].
    split; [by constructor|done].
Qed.
End startup.

Section main_facts.
Implicit Types (w : world) (names : list string).

(** The loop only adds to the log. *)
Lemma execute_all_trace input names w :
  ∃ tr, trace (execute_all input names w).1 = trace w ++ tr.
Proof.
  revert w. induction names as [|name rest IH]; intros w.
  - exists []. simpl. by rewrite app_nil_r.
  - simpl. destruct (Get (registry w) name) as [policy|]; [|eexists; reflexivity].
    destruct (Execute policy input) as [result [err|]];
      match goal with |- context [execute_all _ _ ?w1] =>
        destruct (IH w1) as [tr ->] end;
      unfold emit; cbn [trace]; rewrite <-!app_assoc; eexists; reflexivity.
Qed.

Lemma main_body_spec names w :
  Forall (λ name, is_Some (Get (registry w) name)) names →
  ∃ w',
    main_body names w = (w', Exited 0)
    ∧ registry w' = registry w
    ∧ execute_calls (trace w') = execute_calls (trace w) ++ names
    ∧ logged_results (trace w') =
        logged_results (trace w) ++ omap (result_of (registry w) sample_input) names
    ∧ logged_errors (trace w') =
        logged_errors (trace w) ++ omap (failure_of (registry w) sample_input) names
    ∧ LogLoaded (length names) names ∈ trace w'.
Proof.
  intros Hall. unfold main_body. case_decide as Hlen.
  - apply nil_length_inv in Hlen as ->. eexists. split; [done|].
    unfold execute_calls, logged_results, logged_errors, emit. simpl.
    rewrite !omap_app. simpl. rewrite !app_nil_r.
    repeat (split; [done|]). set_solver.
  - set (w1 := emit [LogExecutingPolicies] _).
    destruct (execute_all_trace sample_input names w1) as [tr Htr].
    destruct (execute_all_registered sample_input names w1 Hall)
      as (w' & Hrun & Hreg & Hcalls & Hres & Herr).
    rewrite Hrun in Htr |- *. simpl in Htr.
    eexists. split; [done|]. unfold emit at 1 2 3 4 5. simpl.
    unfold execute_calls, logged_results, logged_errors in *.
    rewrite !omap_app, Hcalls, Hres, Herr, Htr. subst w1.
    unfold emit. simpl. rewrite !omap_app. simpl. rewrite !app_nil_r.
    repeat (split; [done|]). set_solver.
Qed.

Lemma outcomes_partition r input names :
  Forall (λ name, is_Some (Get r name)) names →
  length (omap (result_of r input) names)
  + length (omap (failure_of r input) names) = length names.
Proof.
  induction 1 as [|name rest [policy Hget] _ IH]; [done|].
  change (omap (result_of r input) (name :: rest))
    with (match result_of r input name with
          | Some v => v :: omap (result_of r input) rest
          | None => omap (result_of r input) rest
          end).
  change (omap (failure_of r input) (name :: rest))
    with (match failure_of r input name with
          | Some e => e :: omap (failure_of r input) rest
          | None => omap (failure_of r input) rest
          end).
  unfold result_of at 1, failure_of at 1. rewrite Hget. simpl.
  destruct (Execute policy input) as [result [err|]]; simpl; lia.
Qed.
End main_facts.

(** X4.  Registration at start-up fails fast: the first policy rejected
    by [Validate] ends the process with status 1 after the policies
    before it were registered and logged; it and every policy after it
    are not registered. *)
Theorem register_policies_fail_fast
    (pre post : list Policy) (bad : Policy) (err : error) (w : world) :
  Forall (λ p, Validate p = None) pre →
  Validate bad = Some err →
  register_policies (pre ++ bad :: post) w =
  ({| registry := register_all pre (registry w);
      trace := trace w ++ registered_events pre
               ++ [LogFatalRegister (Name bad) err] |}, Exited 1)
  ∧ (∀ p, p ∈ bad :: post → Name p ∉ Name <$> pre →
       Get (register_policies (pre ++ bad :: post) w).1.(registry) (Name p)
       = Get (registry w) (Name p)).
Proof.
  intros Hpre Hbad. rewrite (register_policies_stops _ _ _ _ _ Hpre Hbad).
  split; [done|]. intros p _ Hfresh. simpl. rewrite Get_register_all.
  destruct (last _) as [q|] eqn:Hlast; [|done].
  apply last_Some_elem_of, list_elem_of_filter in Hlast as [Hn Hacc].
  unfold accepted in Hacc. apply list_elem_of_filter in Hacc as [_ Hin].
  destruct Hfresh. rewrite <-Hn. by apply list_elem_of_fmap_2.
Qed.

Lemma register_policies_fail_fast_witness :
  register_policies [validator_policy; invalid_policy "broken"; echo_policy "late"]
    initial_world =
  ({| registry := register_all [validator_policy] NewPolicyRegistry;
      trace := [LogRegistered "validator-policy";
                LogFatalRegister "broken" "invalid configuration"] |},
   Exited 1).
Proof.
  refine (proj1 (register_policies_fail_fast [validator_policy] [echo_policy "late"]
           (invalid_policy "broken") "invalid configuration" initial_world _ _)).
  - repeat constructor.
  - reflexivity.
Defined.

(** X5.  Start-up gets through exactly when every linked policy passes
    [Validate]; otherwise it ends with status 1.  When it gets through,
    the registry is the one the [Register] calls build and the log holds
    one line per policy, in the order of the calls. *)
Theorem startup_succeeds_iff (ps : list Policy) (w : world) :
  ((register_policies ps w).2 = Running ↔ Forall (λ p, Validate p = None) ps)
  ∧ ((register_policies ps w).2 ≠ Running → (register_policies ps w).2 = Exited 1)
  ∧ (Forall (λ p, Validate p = None) ps →
       register_policies ps w =
       ({| registry := register_all ps (registry w);
           trace := trace w ++ registered_events ps |}, Running)).
Proof.
  assert (Forall (λ p, Validate p = None) ps
          ∨ Exists (λ p, Validate p ≠ None) ps) as [Hall|Hex].
  { destruct (decide (Forall (λ p, Validate p = None) ps)) as [?|Hn]; [by left|].
    right. by apply not_Forall_Exists in Hn; [|apply _]. }
  - rewrite (register_policies_valid _ _ Hall). by repeat split.
  - destruct (first_invalid _ Hex) as (pre & bad & post & err & -> & Hpre & Hbad).
    rewrite (register_policies_stops _ _ _ _ _ Hpre Hbad). simpl.
    assert (¬ Forall (λ p, Validate p = None) (pre ++ bad :: post)) as Hnot.
    { intros Hall. apply Forall_app in Hall as [_ Hall].
      apply Forall_cons in Hall as [Hv _]. congruence. }
    split; [split; [done|by intros ?]|]. split; [done|by intros ?].
Qed.

Lemma startup_succeeds_iff_witness :
  (register_policies [validator_policy; echo_policy "late"] initial_world).2
    = Running
  ∧ (register_policies [invalid_policy "broken"] initial_world).2 = Exited 1.
Proof.
  destruct (startup_succeeds_iff [validator_policy; echo_policy "late"]
              initial_world) as (Hiff & _ & _).
  destruct (startup_succeeds_iff [invalid_policy "broken"] initial_world)
    as (_ & Hexit & _).
  split.
  - apply Hiff. repeat constructor.
  - apply Hexit. discriminate.
Defined.

(** X6.  Activation is all or nothing.  When one linked policy fails
    [Validate] the process ends with status 1 and [Execute] is called on
    no policy, the valid ones included.  When all pass, every registered
    policy is executed once, in the order of the slice returned by
    [List], and the process ends with status 0. *)
Theorem process_all_or_nothing (ps : list Policy) (names : list string) :
  (Exists (λ p, Validate p ≠ None) ps →
     (process ps names).2 = Exited 1
     ∧ execute_calls (trace (process ps names).1) = [])
  ∧ (Forall (λ p, Validate p = None) ps →
     List (register_all ps NewPolicyRegistry) names →
     (process ps names).2 = Exited 0
     ∧ execute_calls (trace (process ps names).1) = names).
Proof.
  unfold process. split.
  - intros Hex.
    destruct (first_invalid _ Hex) as (pre & bad & post & err & -> & Hpre & Hbad).
    rewrite (register_policies_stops _ _ _ _ _ Hpre Hbad). simpl.
    split; [done|]. unfold execute_calls. rewrite omap_app.
    fold (execute_calls (registered_events pre)).
    by rewrite execute_calls_registered_events.
  - intros Hall HL. rewrite (register_policies_valid _ _ Hall). simpl.
    set (w := {| registry := _; trace := _ |}).
    destruct (main_body_spec names w) as (w' & -> & _ & Hcalls & _).
    { by apply List_all_registered. }
    split; [done|]. simpl. rewrite Hcalls. subst w. simpl.
    by rewrite execute_calls_registered_events.
Qed.

Lemma process_all_or_nothing_witness :
  ((process [validator_policy; invalid_policy "broken"] ["validator-policy"]).2
     = Exited 1
   ∧ execute_calls
       (trace (process [validator_policy; invalid_policy "broken"]
                 ["validator-policy"]).1) = [])
  ∧ ((process [validator_policy] ["validator-policy"]).2 = Exited 0
     ∧ execute_calls (trace (process [validator_policy] ["validator-policy"]).1)
       = ["validator-policy"]).
Proof.
  split.
  - apply (proj1 (process_all_or_nothing
                    [validator_policy; invalid_policy "broken"]
                    ["validator-policy"])).
    apply Exists_cons_tl, Exists_cons_hd. discriminate.
  - apply (proj2 (process_all_or_nothing [validator_policy]
                    ["validator-policy"])).
    + repeat constructor.
    + unfold List. vm_compute. reflexivity.
Defined.

(** X7.  [main] only reads the registry: it leaves it as it was.  It
    reports the number of policies it loaded, and for every policy it
    logs exactly one outcome, a result or an error, so the two logs
    together grow by the number of policies. *)
Theorem main_one_outcome_per_policy (w : world) (names : list string) :
  List (registry w) names →
  registry (main_body names w).1 = registry w
  ∧ LogLoaded (size (policies (registry w))) names ∈ trace (main_body names w).1
  ∧ length (logged_results (trace (main_body names w).1))
    + length (logged_errors (trace (main_body names w).1))
    = length (logged_results (trace w)) + length (logged_errors (trace w))
      + size (policies (registry w)).
Proof.
  intros HL. pose proof (List_all_registered _ _ HL) as Hall.
  destruct (main_body_spec names w Hall)
    as (w' & -> & Hreg & _ & Hres & Herr & Hloaded).
  simpl. rewrite <-(List_length _ _ HL). split; [done|]. split; [done|].
  rewrite Hres, Herr, !length_app.
  pose proof (outcomes_partition (registry w) sample_input names Hall). lia.
Qed.

Lemma main_one_outcome_per_policy_witness :
  registry (main_body ["first"; "second"; "validator-policy"]
              three_policies_world).1 = registry three_policies_world
  ∧ length (logged_results
              (trace (main_body ["first"; "second"; "validator-policy"]
                        three_policies_world).1))
    + length (logged_errors
                (trace (main_body ["first"; "second"; "validator-policy"]
                          three_policies_world).1)) = 3.
Proof.
  destruct (main_one_outcome_per_policy three_policies_world
              ["first"; "second"; "validator-policy"])
    as (Hreg & _ & Hcount).
  - unfold List. vm_compute.
    apply (Permutation_trans
             (perm_swap "second" "first" ["validator-policy"])).
    apply perm_skip, perm_swap.
  - split; [exact Hreg|exact Hcount].
Defined.

(** ** Properties of the example policies *)

(** X8.  On a map the validator policy never fails.  It reports
    [PASSED] exactly when the input has both keys [message] and [data],
    and [FAILED] otherwise. *)
Theorem validator_status (inputMap : list (string * value)) :
  ∃ result,
    validator_Execute (VMap inputMap) = (result, None)
    ∧ field "policy" result = Some (VString "validator-policy")
    ∧ (field "status" result = Some (VString "PASSED")
       ↔ "message" ∈ inputMap.*1 ∧ "data" ∈ inputMap.*1)
    ∧ (field "status" result = Some (VString "FAILED")
       ↔ ¬ ("message" ∈ inputMap.*1 ∧ "data" ∈ inputMap.*1)).
Proof.
  unfold validator_Execute. eexists. split; [reflexivity|].
  split; [reflexivity|].
  rewrite !filter_cons, !filter_nil.
  destruct (decide ("message" ∈ inputMap.*1)) as [Hm|Hm];
    destruct (decide ("data" ∈ inputMap.*1)) as [Hd|Hd];
    repeat case_decide; try done; simpl in *; try lia; naive_solver.
Qed.

Lemma validator_status_witness :
  ∃ result,
    validator_Execute sample_input = (result, None)
    ∧ field "status" result = Some (VString "PASSED").
Proof.
  destruct (validator_status
              [("message", VString "Hello from policy engine");
               ("data", VStrings ["item1"; "item2"; "item3"])])
    as (result & Hrun & _ & Hpassed & _).
  exists result. split; [exact Hrun|].
  apply Hpassed. split; vm_compute; [left|right; left].
Defined.

(** X9.  The validator policy splits its two required fields into the
    ones the input has and the ones it lacks: every required field is in
    exactly one of [valid_fields] and [missing_fields], and nothing else
    is in either. *)
Theorem validator_fields_partition (inputMap : list (string * value)) :
  ∃ validFields missingFields,
    field "valid_fields" (validator_Execute (VMap inputMap)).1
      = Some (VStrings validFields)
    ∧ field "missing_fields" (validator_Execute (VMap inputMap)).1
      = Some (VStrings missingFields)
    ∧ validFields ++ missingFields ≡ₚ ["message"; "data"]
    ∧ (∀ f, f ∈ validFields ↔ f ∈ ["message"; "data"] ∧ f ∈ inputMap.*1)
    ∧ (∀ f, f ∈ missingFields ↔ f ∈ ["message"; "data"] ∧ f ∉ inputMap.*1).
Proof.
  unfold validator_Execute. do 2 eexists.
  split; [reflexivity|]. split; [reflexivity|].
  split; [apply filter_app_complement|].
  split; intros f; rewrite list_elem_of_filter; tauto.
Qed.

(** X11.  The uppercase policy fails exactly on an input that is not a
    map.  On a map it keeps the input under [input] and returns under
    [output] a map with the same keys in which string values and the
    elements of string slices went through [ToUpper]; a slice keeps its
    length, and nested maps and nil values are passed on as they are. *)
Theorem uppercase_shallow
    (ToUpper : string → string) (inputMap : list (string * value)) :
  ∃ out,
    uppercase_Execute ToUpper (VMap inputMap)
    = (VMap [("policy", VString "uppercase-policy");
             ("action", VString "uppercase transformation");
             ("input", VMap inputMap);
             ("output", VMap out)], None)
    ∧ out.*1 = inputMap.*1
    ∧ (∀ i key s, inputMap !! i = Some (key, VString s) →
         out !! i = Some (key, VString (ToUpper s)))
    ∧ (∀ i key l, inputMap !! i = Some (key, VStrings l) →
         ∃ l', out !! i = Some (key, VStrings l')
           ∧ length l' = length l
           ∧ ∀ j s, l !! j = Some s → l' !! j = Some (ToUpper s))
    ∧ (∀ i key m, inputMap !! i = Some (key, VMap m) →
         out !! i = Some (key, VMap m))
    ∧ (∀ i key, inputMap !! i = Some (key, VNil) → out !! i = Some (key, VNil))
    ∧ (∀ input, (uppercase_Execute ToUpper input).2 = None
         ↔ ∃ m, input = VMap m).
Proof.
  eexists. split; [reflexivity|].
  split.
  { rewrite <-list_fmap_compose. by apply list_fmap_ext. }
  split.
  { intros i key s Hi. by rewrite list_lookup_fmap, Hi. }
  split.
  { intros i key l Hi. exists (ToUpper <$> l).
    split; [by rewrite list_lookup_fmap, Hi|].
    split; [by rewrite length_fmap|].
    intros j s Hj. by rewrite list_lookup_fmap, Hj. }
  split.
  { intros i key m Hi. by rewrite list_lookup_fmap, Hi. }
  split.
  { intros i key Hi. by rewrite list_lookup_fmap, Hi. }
  intros input. destruct input; simpl; split; try done; eauto;
    by intros [m [=]].
Qed.

Lemma uppercase_shallow_witness :
  ∃ out,
    field "output" (uppercase_Execute ToUpper_ascii sample_input).1
      = Some (VMap out)
    ∧ out !! 0 = Some ("message", VString "HELLO FROM POLICY ENGINE")
    ∧ out.*1 = ["message"; "data"].
Proof.
  destruct (uppercase_shallow ToUpper_ascii
              [("message", VString "Hello from policy engine");
               ("data", VStrings ["item1"; "item2"; "item3"])])
    as (out & Hrun & Hkeys & Hstring & _).
  exists out. unfold sample_input. rewrite Hrun.
  split; [reflexivity|]. split; [|exact Hkeys].
  exact (Hstring 0 "message" "Hello from policy engine" eq_refl).
Defined.

Lemma validator_fields_partition_witness :
  ∃ validFields missingFields,
    field "valid_fields"
      (validator_Execute (VMap [("data", VStrings ["item1"])])).1
      = Some (VStrings validFields)
    ∧ field "missing_fields"
        (validator_Execute (VMap [("data", VStrings ["item1"])])).1
      = Some (VStrings missingFields)
    ∧ "message" ∈ missingFields.
Proof.
  destruct (validator_fields_partition [("data", VStrings ["item1"])])
    as (validFields & missingFields & Hvalid & Hmissing & _ & _ & Hiff).
  exists validFields, missingFields.
  split; [exact Hvalid|]. split; [exact Hmissing|].
  apply Hiff. split; [left|].
  vm_compute. intros Hin. inversion Hin as [|? ? ? Hin']. inversion Hin'.
Defined.

(** ** Reading the module path of a [go.mod] *)

Section module_path_facts.
Implicit Types (s t : string) (lines : list string).

Lemma drop_newlines_id s :
  Forall (λ c, c ≠ "010"%char) (chars s) → drop_newlines s = s.
Proof.
  destruct s as [|c s]; [done|]. simpl. intros Hall.
  apply Forall_cons in Hall as [Hc _]. by rewrite bool_decide_eq_false_2.
Qed.

(** [$(...)] gives back a line without newline in it. *)
Lemma command_substitution_line s :
  Forall (λ c, c ≠ "010"%char) (chars s) →
  command_substitution (s +:+ newline) = s.
Proof.
  intros Hall. unfold command_substitution.
  assert (String.rev (s +:+ newline) = String "010"%char (String.rev s)) as ->.
  { apply chars_inj. simpl.
    rewrite !chars_rev, chars_app, reverse_app. done. }
  simpl. rewrite drop_newlines_id; [apply rev_rev|].
  rewrite chars_rev. by apply Forall_reverse.
Qed.

Lemma drop_blanks_id s :
  Forall (λ c, is_blank c = false) (chars s) → drop_blanks s = s.
Proof.
  destruct s as [|c s]; [done|]. simpl. intros Hall.
  apply Forall_cons in Hall as [-> _]. done.
Qed.

Lemma take_field_id s :
  Forall (λ c, is_blank c = false) (chars s) → take_field s = s.
Proof.
  induction s as [|c s IH]; [done|]. simpl. intros Hall.
  apply Forall_cons in Hall as [-> Hall]. f_equal. by apply IH.
Qed.

Lemma awk_second_field_module s :
  Forall (λ c, is_blank c = false) (chars s) →
  awk_second_field ("module " +:+ s) = s.
Proof.
  intros Hall. unfold awk_second_field.
  change ("module " +:+ s)
    with (String "m" (String "o" (String "d" (String "u" (String "l"
            (String "e" (String " " s))))))).
  cbn [drop_blanks drop_field is_blank]. simpl.
  by rewrite drop_blanks_id, take_field_id.
Qed.

Lemma prefix_module s : String.prefix "module " ("module " +:+ s) = true.
Proof.
  change ("module " +:+ s)
    with (String "m" (String "o" (String "d" (String "u" (String "l"
            (String "e" (String " " s))))))).
  by destruct s.
Qed.

Lemma grep_module_none lines :
  Forall (λ line, String.prefix "module " line = false) lines →
  grep_module lines = [].
Proof.
  unfold grep_module. induction 1 as [|line lines Hline _ IH]; [done|].
  rewrite filter_cons, decide_False by congruence. done.
Qed.

Lemma module_path_of_none lines :
  Forall (λ line, String.prefix "module " line = false) lines →
  module_path_of lines = EmptyString.
Proof. intros Hall. unfold module_path_of. by rewrite grep_module_none. Qed.
End module_path_facts.

(** X12.  Reading the module path gives back what the [go.mod] declares:
    when the file has one line [module <path>], with [<path>] a single
    word for [awk] (no white space in it), and no other line starts with
    [module ], the script reads [<path>] and calls [go mod edit] with
    that path and the location of the directory.  When moreover the path
    is one the flag takes as it is and the directory name has no [@], a
    successful call leaves the directive from that path, without
    version, to the directory. *)
Theorem module_path_round_trip
    (before after : list string) (path : string) (d : policy_dir) :
  is_word path →
  Forall (λ line, String.prefix "module " line = false) before →
  Forall (λ line, String.prefix "module " line = false) after →
  go_mod d = Some (before ++ ("module " +:+ path) :: after) →
  module_path_of (before ++ ("module " +:+ path) :: after) = path
  ∧ declared_replace d = Some (path, "/policies/" +:+ dir_name d +:+ "/")
  ∧ (plain_path path → cut_at "@" (dir_name d) = None →
     ∀ edit_status st,
       edit_status path (dir_path d) = 0 →
       (rewrite_one edit_status d st).2 = Next
       ∧ core_manifest (rewrite_one edit_status d st).1 !! (path, EmptyString)
         = Some (dir_path d, EmptyString)).
Proof.
  intros [Hne Hword] Hbefore Hafter Hmod.
  assert (module_path_of (before ++ ("module " +:+ path) :: after) = path)
    as Hpath.
  { unfold module_path_of, grep_module.
    rewrite filter_app, filter_cons.
    fold (grep_module before). fold (grep_module after).
    rewrite !grep_module_none by done.
    rewrite decide_True by apply prefix_module. simpl.
    rewrite awk_second_field_module
      by (eapply Forall_impl; [exact Hword|]; by intros c [? _]).
    apply command_substitution_line.
    eapply Forall_impl; [exact Hword|]. by intros c [_ ?]. }
  assert (declared_replace d = Some (path, dir_path d)) as Hdecl.
  { unfold declared_replace. rewrite Hmod. simpl.
    rewrite Hpath. by rewrite decide_False. }
  split; [done|]. split; [exact Hdecl|].
  intros Hplain Hname edit_status st Hedit.
  unfold rewrite_one. rewrite Hdecl.
  unfold and_then, say, run, set_manifest. simpl. rewrite Hedit. simpl.
  split; [done|].
  pose proof (replace_target_dir _ _ Hplain Hname) as Htarget.
  fold (dir_path d) in Htarget.
  rewrite go_mod_edit_replace_eq, lookup_AddReplace.
  rewrite (replace_key_plain _ Hplain), Htarget.
  by rewrite decide_True.
Qed.

Lemma module_path_round_trip_witness :
  module_path_of
    ["// policy module"; "module github.com/example/policies/validator-policy";
     EmptyString; "go 1.21"]
  = "github.com/example/policies/validator-policy".
Proof.
  apply (module_path_round_trip ["// policy module"] [EmptyString; "go 1.21"]
           "github.com/example/policies/validator-policy"
           {| dir_name := "validator-policy";
              go_mod := Some ["// policy module";
                              "module github.com/example/policies/validator-policy";
                              EmptyString; "go 1.21"];
              has_policy_go := true |}).
  - vm_compute. split; [discriminate|]. repeat constructor; discriminate.
  - repeat constructor.
  - repeat constructor.
  - reflexivity.
Defined.

(** X13.  The loop passes over every directory that has no [go.mod] or
    whose [go.mod] has no line starting with [module ]: it writes no
    directive, prints nothing and goes on, so a run over such directories
    alone leaves the state as it was. *)
Theorem rewrite_loop_skips
    (edit_status : string → string → nat)
    (dirs : list policy_dir) (st : build_state) :
  Forall (λ d, go_mod d = None
               ∨ ∃ lines, go_mod d = Some lines
                   ∧ Forall (λ line, String.prefix "module " line = false) lines)
    dirs →
  rewrite_loop edit_status dirs st = (st, Next).
Proof.
  intros Hall. rewrite rewrite_loop_spec.
  assert (omap declared_replace dirs = []) as Hnone.
  { induction Hall as [|d dirs Hd _ IH]; [done|]. simpl.
    assert (declared_replace d = None) as ->; [|done].
    unfold declared_replace. destruct Hd as [->|(lines & -> & Hlines)]; [done|].
    simpl. by rewrite module_path_of_none. }
  unfold after_rewrite, rewrite_manifest. rewrite Hnone. simpl.
  destruct st. simpl. by rewrite app_nil_r.
Qed.

Lemma rewrite_loop_skips_witness :
  rewrite_loop (λ _ _, 1)
    [malformed_dir; {| dir_name := "docs"; go_mod := None; has_policy_go := false |}]
    fresh_state
  = (fresh_state, Next).
Proof.
  apply rewrite_loop_skips.
  apply List.Forall_cons.
  - right. exists ["go 1.21"]. split; [reflexivity|].
    apply List.Forall_cons; [reflexivity|apply List.Forall_nil].
  - apply List.Forall_cons; [left; reflexivity|apply List.Forall_nil].
Defined.

(** ** Further properties of [go mod edit -replace] *)

(** X14.  After a successful [go mod edit -replace=old=new] the manifest
    holds the directive for the path and version read from [old], and it
    points at the path and version read from [new].  Directives for other
    module paths are the ones it had.  Another directive for the same
    module path goes when [old] carries no version and stays when it
    does.  For a module path the flag takes as it is and the location of
    a policy directory whose name has no [@], the directive is the one
    from that path, without version, to that location. *)
Theorem edit_replace_lookup (old new : string) (m : manifest) :
  go_mod_edit_replace old new m !! replace_key old
  = Some (replace_target old new)
  ∧ (∀ k, k.1 ≠ (replace_key old).1 →
       go_mod_edit_replace old new m !! k = m !! k)
  ∧ (∀ k, k ≠ replace_key old → k.1 = (replace_key old).1 →
       go_mod_edit_replace old new m !! k
       = if decide ((replace_key old).2 = EmptyString) then None else m !! k)
  ∧ (∀ name, plain_path old → cut_at "@" name = None →
       new = "/policies/" +:+ name +:+ "/" →
       replace_key old = (old, EmptyString)
       ∧ replace_target old new = (new, EmptyString)
       ∧ go_mod_edit_replace old new m !! (old, EmptyString)
         = Some (new, EmptyString)).
Proof.
  split; [|split; [|split]].
  - rewrite go_mod_edit_replace_eq, lookup_AddReplace. by rewrite decide_True.
  - intros k Hk. rewrite go_mod_edit_replace_eq, lookup_AddReplace.
    rewrite decide_False by congruence.
    by rewrite decide_False by naive_solver.
  - intros k Hk Hpath. rewrite go_mod_edit_replace_eq, lookup_AddReplace.
    rewrite decide_False by done.
    destruct (decide ((replace_key old).2 = EmptyString)) as [Hv|Hv].
    + by rewrite decide_True.
    + by rewrite decide_False by naive_solver.
  - intros name Hplain Hname ->.
    pose proof (replace_key_plain _ Hplain) as Hkey.
    pose proof (replace_target_dir old name Hplain Hname) as Htarget.
    split; [done|]. split; [done|].
    rewrite go_mod_edit_replace_eq, lookup_AddReplace, Hkey, Htarget.
    by rewrite decide_True.
Qed.

Lemma edit_replace_lookup_witness :
  go_mod_edit_replace "example.com/b" "/policies/b/"
    {[ ("example.com/a", EmptyString) := ("/policies/a/", EmptyString) ]}
  !! ("example.com/a", EmptyString)
  = Some ("/policies/a/", EmptyString).
Proof.
  rewrite (proj1 (proj2 (edit_replace_lookup "example.com/b" "/policies/b/"
             {[ ("example.com/a", EmptyString)
                := ("/policies/a/", EmptyString) ]}))
             ("example.com/a", EmptyString)).
  - apply lookup_singleton_eq.
  - vm_compute. discriminate.
Defined.

(** X15.  A later [go mod edit -replace] for a module path overrides an
    earlier one without trace: the manifest is the one the later call
    alone would give.  In particular the same call twice is the call
    once. *)
Theorem edit_replace_last_wins (old new new' : string) (m : manifest) :
  go_mod_edit_replace old new (go_mod_edit_replace old new' m)
  = go_mod_edit_replace old new m.
Proof.
  apply map_eq. intros k.
  rewrite !go_mod_edit_replace_eq, !lookup_AddReplace.
  by repeat case_decide.
Qed.

(** ** Further properties of the script *)

Section script_outcomes.
Implicit Types (env : build_env) (st : build_state) (K : list (string * string)).

Lemma loop_flow_exit edit_status K code :
  loop_flow edit_status K = Exit code → code ≠ 0.
Proof.
  induction K as [|r K IH]; [done|]. simpl. case_decide; [done|].
  by intros [= <-].
Qed.

Lemma loop_flow_stops edit_status K1 r K2 :
  loop_flow edit_status K1 = Next → edit_status r.1 r.2 ≠ 0 →
  loop_flow edit_status (K1 ++ r :: K2) = Exit (edit_status r.1 r.2)
  ∧ applied edit_status (K1 ++ r :: K2) = K1.
Proof.
  intros Hflow Hfail. induction K1 as [|r1 K1 IH]; simpl in *.
  - by repeat case_decide.
  - repeat case_decide; try done. destruct (IH Hflow) as [-> ->]. done.
Qed.

(** When resolution and compilation go through, packaging starts with
    the binary written. *)
Lemma script_tail_built env st :
  built env →
  script_tail env st
  = packaging env
      (after_build
         (if policies_is_dir env
          then after_rewrite (go_mod_edit env) (policy_dirs env) st else st)).
Proof.
  intros (Hloop & Htidy & Hbuild).
  unfold script_tail, resolve_dependencies, build_application.
  destruct (policies_is_dir env).
  - unfold and_then, run, say, write_binary.
    rewrite rewrite_loop_spec, Hloop, Htidy, Hbuild by done. done.
  - unfold and_then, run, say, write_binary, skip.
    by rewrite Htidy, Hbuild.
Qed.

(** When they do not, the script ends there with a non-zero status and
    neither binary nor image is written. *)
Lemma script_tail_not_built env st :
  ¬ built env →
  exit_status (script_tail env st) ≠ 0
  ∧ imports_go (script_tail env st).1 = imports_go st
  ∧ binary (script_tail env st).1 = binary st
  ∧ images (script_tail env st).1 = images st.
Proof.
  intros Hnot.
  unfold script_tail, resolve_dependencies, build_application, and_then, run,
    say, write_binary, skip, exit_status.
  destruct (policies_is_dir env) eqn:Hdir.
  - rewrite rewrite_loop_spec.
    destruct (loop_flow _ _) as [|code] eqn:Hflow; simpl.
    + destruct (decide (go_mod_tidy env = 0)) as [Ht|Ht]; simpl; [|done].
      destruct (decide (go_build env = 0)) as [Hb|Hb]; simpl; [|done].
      destruct Hnot. by unfold built.
    + split; [by eapply loop_flow_exit|done].
  - destruct (decide (go_mod_tidy env = 0)) as [Ht|Ht]; simpl; [|done].
    destruct (decide (go_build env = 0)) as [Hb|Hb]; simpl; [|done].
    destruct Hnot. unfold built. by rewrite Hdir.
Qed.

End script_outcomes.

(** X17.  The script from step 2 on, that is after the generator has
    run, ends with status 0 exactly when every [go mod edit] of the loop,
    [go mod tidy] and [go build] succeeded and either the Docker socket
    is absent or every command of the packaging step succeeded: [mkdir],
    [cp], [cat >], [docker build] and [rm -rf]. *)
Theorem script_tail_success_iff (env : build_env) (st : build_state) :
  exit_status (script_tail env st) = 0
  ↔ ((policies_is_dir env = true →
      loop_flow (go_mod_edit env) (omap declared_replace (policy_dirs env)) = Next)
     ∧ go_mod_tidy env = 0 ∧ go_build env = 0)
    ∧ (docker_socket env = false
       ∨ mkdir_context env = 0 ∧ cp_binary env = 0 ∧ write_dockerfile env = 0
         ∧ docker_build env = 0 ∧ rm_context env = 0).
Proof.
  change ((policies_is_dir env = true →
           loop_flow (go_mod_edit env) (omap declared_replace (policy_dirs env))
           = Next)
          ∧ go_mod_tidy env = 0 ∧ go_build env = 0) with (built env).
  destruct (decide (built env)) as [Hb|Hb].
  - rewrite (script_tail_built env st Hb).
    match goal with |- context [packaging env ?s] => set (st3 := s) end.
    destruct (packaging_status env st3) as (Hiff & _).
    unfold packaged, image_built in Hiff.
    destruct (decide (exit_status (packaging env st3) = 0)) as [Hz|Hz].
    + split; [|done]. intros _. split; [done|].
      destruct (docker_socket env); [|by left]. right.
      destruct (decide (mkdir_context env = 0)), (decide (cp_binary env = 0)),
        (decide (write_dockerfile env = 0)), (decide (docker_build env = 0)),
        (decide (rm_context env = 0)); try done;
        exfalso; (apply (proj2 Hiff); [|exact Hz]); naive_solver.
    + split; [done|]. intros [_ Hok]. exfalso.
      apply Hiff in Hz as [Hs Hnot]. destruct Hok as [Hno|Hok]; [congruence|].
      apply Hnot. naive_solver.
  - split; [|naive_solver]. intros Hzero.
    by destruct (script_tail_not_built env st Hb) as [Hne _].
Qed.

Lemma script_tail_success_iff_witness :
  exit_status (script_tail (successful_env example_policies true 0) fresh_state)
  = 0.
Proof.
  apply script_tail_success_iff. split.
  - split; [intros _; reflexivity|]. split; reflexivity.
  - right. repeat split.
Defined.

(** X18.  From step 2 on the script never takes back what a step has
    written and never touches the aggregator source.  The binary is
    written exactly when every [go mod edit] of the loop, [go mod tidy]
    and [go build] succeeded (a binary of an earlier run stays in place
    otherwise).  An image is added exactly when, after that, the socket
    is there and [mkdir], [cp], [cat >] and [docker build] succeeded; it
    stays when the closing [rm -rf] fails. *)
Theorem script_tail_artifacts (env : build_env) (st : build_state) :
  imports_go (script_tail env st).1 = imports_go st
  ∧ binary (script_tail env st).1
    = (if decide (built env) then true else binary st)
  ∧ images (script_tail env st).1
    = (if decide (built env ∧ docker_socket env = true
                  ∧ mkdir_context env = 0 ∧ cp_binary env = 0
                  ∧ write_dockerfile env = 0 ∧ docker_build env = 0)
       then images st ++ [image_of env] else images st).
Proof.
  destruct (decide (built env)) as [Hb|Hb].
  - rewrite (script_tail_built env st Hb).
    match goal with |- context [packaging env ?s] => set (st3 := s) end.
    destruct (packaging_status env st3) as (_ & Himg & Hbin & Himp & _).
    rewrite Himg, Hbin, Himp. subst st3. unfold after_build. simpl.
    split; [by destruct (policies_is_dir env)|]. split; [done|].
    assert (images (if policies_is_dir env
                    then after_rewrite (go_mod_edit env) (policy_dirs env) st
                    else st) = images st) as ->
      by (by destruct (policies_is_dir env)).
    unfold image_built. repeat case_decide; naive_solver.
  - destruct (script_tail_not_built env st Hb) as (_ & -> & -> & ->).
    split; [done|]. split; [done|]. by rewrite decide_False by naive_solver.
Qed.

(** X19.  A failing [go mod edit] ends the loop with its status and
    takes nothing back: the directives of the directories before the
    failing one stay written, those of the directories after it are not
    written, and a script that reached the loop ends with that status
    without writing the binary. *)
Theorem rewrite_loop_partial
    (env : build_env) (st : build_state)
    (before after : list policy_dir) (d : policy_dir)
    (module_path dir : string) :
  policy_dirs env = before ++ d :: after →
  loop_flow (go_mod_edit env) (omap declared_replace before) = Next →
  declared_replace d = Some (module_path, dir) →
  go_mod_edit env module_path dir ≠ 0 →
  rewrite_loop (go_mod_edit env) (policy_dirs env) st
  = (after_rewrite (go_mod_edit env) (policy_dirs env) st,
     Exit (go_mod_edit env module_path dir))
  ∧ core_manifest (after_rewrite (go_mod_edit env) (policy_dirs env) st)
    = replace_all (omap declared_replace before) (core_manifest st)
  ∧ (generated env →
       exit_status (build_sh env st) = go_mod_edit env module_path dir
       ∧ core_manifest (build_sh env st).1
         = replace_all (omap declared_replace before) (core_manifest st)
       ∧ binary (build_sh env st).1 = binary st).
Proof.
  intros Hdirs Hflow Hdecl Hfail.
  assert (omap declared_replace (policy_dirs env)
          = omap declared_replace before
            ++ (module_path, dir) :: omap declared_replace after) as HK.
  { rewrite Hdirs, omap_app. simpl. by rewrite Hdecl. }
  destruct (loop_flow_stops (go_mod_edit env) _ (module_path, dir)
              (omap declared_replace after) Hflow Hfail) as [Hexit Happlied].
  rewrite <-HK in Hexit, Happlied.
  assert (core_manifest (after_rewrite (go_mod_edit env) (policy_dirs env) st)
          = replace_all (omap declared_replace before) (core_manifest st))
    as Hmanifest.
  { unfold after_rewrite, rewrite_manifest. simpl. by rewrite Happlied. }
  split; [by rewrite rewrite_loop_spec, Hexit|]. split; [done|].
  intros Hg. pose proof Hg as (_ & _ & [source Hsrc] & _).
  rewrite (build_sh_generated env st source Hg Hsrc).
  set (st1 := {| core_manifest := _; imports_go := Some source |}).
  set (rest := run (go_mod_tidy env) >>> _).
  assert ((rewrite_loop (go_mod_edit env) (policy_dirs env) >>> rest) st1
          = (after_rewrite (go_mod_edit env) (policy_dirs env) st1,
             Exit (go_mod_edit env module_path dir))) as ->.
  { unfold and_then at 1. by rewrite rewrite_loop_spec, Hexit. }
  unfold exit_status. simpl. split; [done|]. split; [|done].
  unfold rewrite_manifest. by rewrite Happlied.
Qed.

Lemma rewrite_loop_partial_witness :
  exit_status
    (build_sh
       (edit_failing_env "github.com/example/policies/validator-policy"
          example_policies) fresh_state) = 2
  ∧ core_manifest
      (build_sh
         (edit_failing_env "github.com/example/policies/validator-policy"
            example_policies) fresh_state).1
    = {[ ("github.com/example/policies/uppercase-policy", EmptyString)
         := ("/policies/uppercase-policy/", EmptyString) ]}
  ∧ binary
      (build_sh
         (edit_failing_env "github.com/example/policies/validator-policy"
            example_policies) fresh_state).1 = false.
Proof.
  destruct (rewrite_loop_partial
              (edit_failing_env "github.com/example/policies/validator-policy"
                 example_policies) fresh_state
              [module_dir "uppercase-policy"
                 "github.com/example/policies/uppercase-policy"]
              []
              (module_dir "validator-policy"
                 "github.com/example/policies/validator-policy")
              "github.com/example/policies/validator-policy"
              "/policies/validator-policy/")
    as (_ & _ & Hrun); [reflexivity..|discriminate|].
  apply Hrun. vm_compute. intuition eauto.
Defined.
